(** * y_middleware: handler chains, the Kudret stack and address detection

    A shallow embedding of [main.go].  The library's own functions ([build],
    [voidMiddleware], the three [ServeHTTP] methods, [Wrap], [WrapFunc], [New],
    [With], [Use] and its variants, [detectAddress]) are Rocq functions.  The
    code of the handlers a caller registers is not part of the library: it is
    a value of the small tree type [code], over which the theorems quantify.

    The file has two parts: the program and the vocabulary of its
    specification first, then the lemmas and theorems. *)

From stdpp Require Import base list strings gmap.

Set Default Proof Using "Type".

(** * Part I: the program

    ** Outcomes and observations *)

(** How a Go call ends: it returns, or it panics and unwinds. *)
Inductive status := Returned | Panicked.

(** What a dispatch lets an observer see of the chain, by 0-indexed position
    of the node: [Invoke i], the node at position [i] is asked to serve
    ([middleware.ServeHTTP] runs on it, which calls its handler); [Yield i],
    the handler at position [i] calls the continuation it was passed. *)
Inductive event := Invoke (pos : nat) | Yield (pos : nat).

Global Instance status_eq_dec : EqDecision status.
Proof. solve_decision. Defined.
Global Instance event_eq_dec : EqDecision event.
Proof. solve_decision. Defined.

(** Number of times the node at position [j] was invoked. *)
Fixpoint invocations (t : list event) (j : nat) : nat :=
  match t with
  | [] => 0
  | Invoke p :: t' => (if decide (p = j) then 1 else 0) + invocations t' j
  | Yield _ :: t' => invocations t' j
  end.

(** Number of times the handler at position [i] called its continuation. *)
Fixpoint yields (t : list event) (i : nat) : nat :=
  match t with
  | [] => 0
  | Yield p :: t' => (if decide (p = i) then 1 else 0) + yields t' i
  | Invoke _ :: t' => yields t' i
  end.

(** The positions invoked, in the order of the invocations. *)
Fixpoint invoked (t : list event) : list nat :=
  match t with
  | [] => []
  | Invoke p :: t' => p :: invoked t'
  | Yield _ :: t' => invoked t'
  end.

(** The invocations of the [n] registered handlers (the sentinel node sits at
    position [n] and is left out). *)
Definition registered (n : nat) (t : list event) : list nat :=
  filter (λ p, p < n) (invoked t).

(** Each position once, in the order of its first occurrence. *)
Fixpoint firsts (l : list nat) : list nat :=
  match l with
  | [] => []
  | x :: l' => x :: filter (λ y, y ≠ x) (firsts l')
  end.

Section Chain.

(** [http.ResponseWriter] and [*http.Request] are handles owned by the HTTP
    server; [World] is everything a handler can read or change through them
    (the response's headers, status and body, and whatever else it closes
    over). *)
Context {ResponseWriter Request World : Type}.

Record result := Result {
  res_status : status;
  res_world : World;
  res_events : list event
}.

(** A callable [func(http.ResponseWriter, *http.Request)] as the chain passes
    it along: the method value [m.next.ServeHTTP]. *)
Definition continuation : Type := ResponseWriter → Request → World → result.

(** ** Code of the caller's handlers *)

(** Body of a [func(rw, r, next)]: it returns, panics, changes the world,
    branches on it, or calls [next] with a writer and a request of its
    choice and goes on according to how that call ended ([Panicked] is seen
    only by code that recovers; code that does not goes on with [Panic]).
    The trees are well-founded: a handler neither loops nor blocks. *)
Inductive code : Type :=
  | Return
  | Panic
  | Effect (f : World → World) (k : code)
  | Inspect (f : World → code)
  | CallNext (rw : ResponseWriter) (r : Request) (k : status → code).

(** Body of a plain [func(rw, r)]: the same without a continuation to call. *)
Inductive plain : Type :=
  | PReturn
  | PPanic
  | PEffect (f : World → World) (k : plain)
  | PInspect (f : World → plain).

(** [p; c]: the statements of [c] after the plain call [p] has returned. *)
Fixpoint andThen (p : plain) (c : code) : code :=
  match p with
  | PReturn => c
  | PPanic => Panic
  | PEffect f k => Effect f (andThen k c)
  | PInspect f => Inspect (λ w, andThen (f w) c)
  end.

(** [next(rw, r); k] in code that does not recover: a panic of the call
    unwinds the caller too. *)
Definition callNext (rw : ResponseWriter) (r : Request) (k : code) : code :=
  CallNext rw r (λ st, match st with Returned => k | Panicked => Panic end).

(** Running a body with [next] bound.  The position [pos] of the handler in
    its chain only labels the events; status and world do not depend on it
    ([serve_ghost_position] below). *)
Fixpoint exec (pos : nat) (c : code) (next : continuation) (w : World) : result :=
  match c with
  | Return => Result Returned w []
  | Panic => Result Panicked w []
  | Effect f k => exec pos k next (f w)
  | Inspect f => exec pos (f w) next w
  | CallNext rw r k =>
      let r1 := next rw r w in
      let r2 := exec pos (k (res_status r1)) next (res_world r1) in
      Result (res_status r2) (res_world r2)
             (Yield pos :: res_events r1 ++ res_events r2)
  end.

(** Running a plain body: the same with no continuation in reach. *)
Fixpoint run_plain (p : plain) (w : World) : status * World :=
  match p with
  | PReturn => (Returned, w)
  | PPanic => (Panicked, w)
  | PEffect f k => run_plain k (f w)
  | PInspect f => run_plain (f w) w
  end.

(** ** The library *)

(** [type HandlerFunc func(rw, r, next)], and [http.Handler] /
    [http.HandlerFunc] for the plain ones (a nil one is the body [PPanic]). *)
Definition HandlerFunc_body : Type := ResponseWriter → Request → code.
Definition http_Handler : Type := ResponseWriter → Request → plain.

(** [type Handler interface { ServeHTTP(rw, r, next) }]: the nil interface
    value, or an implementation, whose method is a [HandlerFunc_body]. *)
Inductive Handler : Type :=
  | nilHandler
  | HandlerFunc (h : HandlerFunc_body).

(** [type middleware struct { handler Handler; next *middleware }]; a nil
    [next] is [None], and [middleware{}] is [zeroMiddleware]. *)
#[warnings="-register-all"]
Inductive middleware : Type :=
  Build_middleware { handler : Handler; next : option middleware }.

Definition zeroMiddleware : middleware :=
  {| handler := nilHandler; next := None |}.

(** [h.ServeHTTP(rw, r, next)] through the interface: the method of the
    implementation ([func (h HandlerFunc) ServeHTTP] is [h(rw, r, next)]);
    on the nil interface value the call panics. *)
Definition Handler_ServeHTTP (pos : nat) (hd : Handler)
    (rw : ResponseWriter) (r : Request) (next : continuation)
    (w : World) : result :=
  match hd with
  | nilHandler => Result Panicked w []
  | HandlerFunc h => exec pos (h rw r) next w
  end.

(** [func (m middleware) ServeHTTP(rw, r)]:
    [m.handler.ServeHTTP(rw, r, m.next.ServeHTTP)].  Taking the method value
    [m.next.ServeHTTP] dereferences [m.next], which panics on nil. *)
Fixpoint middleware_ServeHTTP (pos : nat) (m : middleware)
    (rw : ResponseWriter) (r : Request) (w : World) : result :=
  match m with
  | Build_middleware hd nx =>
      match nx with
      | None => Result Panicked w [Invoke pos]
      | Some n =>
          let r1 :=
            Handler_ServeHTTP pos hd rw r (middleware_ServeHTTP (S pos) n) w in
          Result (res_status r1) (res_world r1) (Invoke pos :: res_events r1)
      end
  end.

(** [func voidMiddleware() middleware] *)
Definition voidMiddleware : middleware :=
  {| handler := HandlerFunc (λ _ _, Return); next := Some zeroMiddleware |}.

(** [func build(handlers []Handler) middleware] *)
Fixpoint build (handlers : list Handler) : middleware :=
  match handlers with
  | [] => voidMiddleware
  | h :: rest =>
      let next :=
        match rest with
        | _ :: _ => build rest
        | [] => voidMiddleware
        end in
      {| handler := h; next := Some next |}
  end.

(** [func Wrap(handler http.Handler) Handler] *)
Definition Wrap (handler : http_Handler) : Handler :=
  HandlerFunc (λ rw r, andThen (handler rw r) (callNext rw r Return)).

(** [func WrapFunc(handlerFunc http.HandlerFunc) Handler] *)
Definition WrapFunc (handlerFunc : http_Handler) : Handler :=
  HandlerFunc (λ rw r, andThen (handlerFunc rw r) (callNext rw r Return)).

(** Dispatch of a (response, request) pair through the chain built from a
    handler list. *)
Definition dispatch (handlers : list Handler)
    (rw : ResponseWriter) (r : Request) (w : World) : result :=
  middleware_ServeHTTP 0 (build handlers) rw r w.

(** What a chain is for, said on the handler list itself: the first handler
    of the list is called, and what it is passed as [next] calls the rest of
    the list in the same way; behind the last handler [next] does nothing.
    Calling a nil handler panics.  [pos] counts the handlers from the head
    of the list. *)
Fixpoint run_in_order (pos : nat) (handlers : list Handler)
    (rw : ResponseWriter) (r : Request) (w : World) : result :=
  match handlers with
  | [] => Result Returned w [Invoke pos]
  | nilHandler :: _ => Result Panicked w [Invoke pos]
  | HandlerFunc h :: rest =>
      let r1 := exec pos (h rw r) (run_in_order (S pos) rest) w in
      Result (res_status r1) (res_world r1) (Invoke pos :: res_events r1)
  end.

(** [func(rw, r, next) { before(); next(rw, r); after() }] *)
Definition around (before after : World → World) : Handler :=
  HandlerFunc (λ rw r, Effect before (callNext rw r (Effect after Return))).

(** What an adapted handler does when it is called with [next]. *)
Definition adapted (handler : http_Handler) pos rw r
    (next : continuation) (w : World) : result :=
  match run_plain (handler rw r) w with
  | (Returned, w1) =>
      Result (res_status (next rw r w1)) (res_world (next rw r w1))
             (Yield pos :: res_events (next rw r w1))
  | (Panicked, w1) => Result Panicked w1 []
  end.

(** Number of nodes of a chain, the zero-valued one behind the sentinel
    included. *)
Fixpoint nodes (m : middleware) : nat :=
  match m with
  | Build_middleware _ nx =>
      S (match nx with None => 0 | Some n => nodes n end)
  end.

(** Code that recovers no panic of its continuation: after a call of [next]
    that panicked it does nothing but panic. *)
Inductive propagating : code → Prop :=
  | prop_Return : propagating Return
  | prop_Panic : propagating Panic
  | prop_Effect f k : propagating k → propagating (Effect f k)
  | prop_Inspect f : (∀ w, propagating (f w)) → propagating (Inspect f)
  | prop_CallNext rw r k :
      k Panicked = Panic → propagating (k Returned) →
      propagating (CallNext rw r k).

Definition propagates (h : Handler) : Prop :=
  match h with
  | nilHandler => True
  | HandlerFunc f => ∀ rw r, propagating (f rw r)
  end.

(** A handler every call of which panics, the nil handler for one. *)
Definition always_panics (h : Handler) : Prop :=
  ∀ pos rw r next w,
    res_status (Handler_ServeHTTP pos h rw r next w) = Panicked.

(** The plain handlers of a list run one after the other on the same writer
    and request, up to the first that panics. *)
Fixpoint run_plains (ps : list http_Handler)
    (rw : ResponseWriter) (r : Request) (w : World) : status * World :=
  match ps with
  | [] => (Returned, w)
  | p :: ps' =>
      match run_plain (p rw r) w with
      | (Returned, w1) => run_plains ps' rw r w1
      | (Panicked, w1) => (Panicked, w1)
      end
  end.

(** The handlers along a chain, from its head to the node in front of the
    sentinel (the node whose [next] is the zero-valued one). *)
Fixpoint chain_handlers (m : middleware) : list Handler :=
  match m with
  | Build_middleware hd nx =>
      match nx with
      | None => []
      | Some n =>
          match n with
          | Build_middleware _ None => []
          | Build_middleware _ (Some _) => hd :: chain_handlers n
          end
      end
  end.

End Chain.

Arguments result : clear implicits.
Arguments code : clear implicits.
Arguments plain : clear implicits.
Arguments Handler : clear implicits.
Arguments middleware : clear implicits.
Arguments continuation : clear implicits.
Arguments HandlerFunc_body : clear implicits.
Arguments http_Handler : clear implicits.

(** ** Shape of the traces a chain can produce *)

(** What a handler at position [pos] adds to the trace: one [Yield pos] per
    call of its continuation, each followed by what the rest of the chain
    did during that call. *)
Inductive handler_trace (pos : nat) (S : list event → Prop) : list event → Prop :=
  | ht_done : handler_trace pos S []
  | ht_call s t :
      S s → handler_trace pos S t → handler_trace pos S (Yield pos :: s ++ t).

(** Traces of a node at position [pos] with [n] registered handlers from
    there on ([n = 0]: the sentinel). *)
Fixpoint chain_trace (n pos : nat) (t : list event) : Prop :=
  ∃ t', t = Invoke pos :: t' ∧
    match n with
    | 0 => t' = []
    | S n' => handler_trace pos (chain_trace n' (S pos)) t'
    end.

(** ** The Kudret stack *)

(** [New], [With] and [Use] work on Go's heap: a [*Kudret] points at a struct
    that [Use] updates in place, and a [[]Handler] is a slice header over a
    backing array that [append] may write to or replace.  Both kinds of
    object live in a store; an address is an index into it, and allocation
    adds at the end. *)

(** A slice header: backing array, length, capacity.  The nil slice has
    length and capacity 0. *)
Record slice := Slice {
  slice_array : nat;
  slice_len : nat;
  slice_cap : nat
}.

Definition nil_slice : slice := Slice 0 0 0.

(** The capacity [append] gives a slice it has to grow is the runtime's
    business.  In the gc runtime (Go 1.22 and later, 64-bit) [growslice]
    takes [nextslicecap] and rounds the memory of that many elements up to
    what the allocator hands out, [roundupsize].

    [runtime.nextslicecap], called with [oldCap < newLen]: the length needed
    when that is more than twice the old capacity, else twice the old
    capacity below 256 elements and steps of a quarter (plus 192) above. *)
Fixpoint nextslicecap_loop (fuel newcap newLen : nat) : nat :=
  match fuel with
  | 0 => newLen
  | S fuel' =>
      if decide (newLen ≤ newcap) then newcap
      else nextslicecap_loop fuel' (newcap + (newcap + 768) / 4) newLen
  end.

Definition nextslicecap (oldCap newLen : nat) : nat :=
  if decide (2 * oldCap < newLen) then newLen
  else if decide (oldCap < 256) then 2 * oldCap
  else nextslicecap_loop newLen oldCap newLen.

(** The allocator's size classes, in bytes ([runtime.class_to_size]). *)
Definition class_to_size : list N :=
  [8; 16; 24; 32; 48; 64; 80; 96; 112; 128; 144; 160; 176; 192; 208; 224;
   240; 256; 288; 320; 352; 384; 416; 448; 480; 512; 576; 640; 704; 768;
   896; 1024; 1152; 1280; 1408; 1536; 1792; 2048; 2304; 2688; 3072; 3200;
   3456; 4096; 4864; 5120; 5376; 6144; 6528; 6784; 6912; 8192; 9472; 9728;
   10240; 10880; 12288; 13568; 14336; 16384; 18432; 19072; 20480; 21760;
   24576; 27264; 28672; 32768]%N.

(** [runtime.roundupsize(size, noscan = false)]: the bytes an allocation of
    [size] bytes that holds pointers gets.  Up to 32760 bytes that is the
    smallest size class that fits, with an 8-byte header taken off for
    objects over 512 bytes; above, whole pages of 8192 bytes. *)
Definition roundupsize (size : N) : N :=
  if decide (size ≤ 32768 - 8)%N then
    let reqSize := if decide (512 < size)%N then (size + 8)%N else size in
    match list_find (λ c, (reqSize ≤ c)%N) class_to_size with
    | Some (_, c) => (c - (reqSize - size))%N
    | None => size
    end
  else ((size + 8191) / 8192 * 8192)%N.

(** The capacity [growslice] gives a slice of [Handler]s, interface values
    of 16 bytes each. *)
Definition growslice_cap (oldCap newLen : nat) : nat :=
  N.to_nat (roundupsize (16 * N.of_nat (nextslicecap oldCap newLen)) / 16).

Section Stack.

Context {ResponseWriter Request World : Type}.
Local Abbreviation Handler := (Handler ResponseWriter Request World).
Local Abbreviation middleware := (middleware ResponseWriter Request World).
Local Abbreviation http_Handler := (http_Handler ResponseWriter Request World).
Local Abbreviation HandlerFunc_body := (HandlerFunc_body ResponseWriter Request World).

(** The language leaves the capacity of a grown slice to the implementation;
    [growcap oldCap newLen] is the one chosen. *)
Variable growcap : nat → nat → nat.

(** [type Kudret struct { middleware middleware; handlers []Handler }] *)
Record Kudret := {
  Kudret_middleware : middleware;
  Kudret_handlers : slice
}.

Record heap := Heap {
  arrays : list (list Handler);
  stacks : list Kudret
}.

Definition empty_heap : heap := Heap [] [].

(** A call returns a value and the heap it leaves, or panics; the heap at the
    panic is what a recovering caller finds. *)
Inductive outcome (A : Type) : Type :=
  | Ok (a : A) (σ : heap)
  | Panics (msg : string) (σ : heap).
Arguments Ok {A} a σ.
Arguments Panics {A} msg σ.

Definition Go (A : Type) : Type := heap → outcome A.

Definition ret {A} (a : A) : Go A := λ σ, Ok a σ.
Definition panic {A} (msg : string) : Go A := λ σ, Panics msg σ.
Definition bind {A B} (m : Go A) (f : A → Go B) : Go B := λ σ,
  match m σ with
  | Ok a σ' => f a σ'
  | Panics msg σ' => Panics msg σ'
  end.

Local Notation "x ← m ; f" := (bind m (λ x, f))
  (at level 20, m at level 100, f at level 200, only parsing).

Definition panicked {A} (o : outcome A) : Prop :=
  match o with Panics _ _ => True | Ok _ _ => False end.

(** *** Slices *)

(** The backing array at an address (none: no element to reach). *)
Definition array_at (σ : heap) (i : nat) : list Handler :=
  default [] (arrays σ !! i).

(** The elements [s[0], ..., s[len(s)-1]]. *)
Definition elems (σ : heap) (s : slice) : list Handler :=
  take (slice_len s) (array_at σ (slice_array s)).

Definition read (s : slice) : Go (list Handler) := λ σ, Ok (elems σ s) σ.

(** The slice a variadic call [f(v1, ..., vn)] passes: nil without
    arguments, else a fresh array holding exactly them. *)
Definition variadic (vs : list Handler) : Go slice := λ σ,
  match vs with
  | [] => Ok nil_slice σ
  | _ :: _ =>
      Ok (Slice (length (arrays σ)) (length vs) (length vs))
         (Heap (arrays σ ++ [vs]) (stacks σ))
  end.

(** [append(s, vs...)]: within the capacity of [s] the values are written
    into its backing array behind its length; else they go, behind a copy of
    the elements of [s], into a new array. *)
Definition append (s : slice) (vs : list Handler) : Go slice := λ σ,
  let n := slice_len s + length vs in
  if decide (n ≤ slice_cap s) then
    let a := array_at σ (slice_array s) in
    Ok (Slice (slice_array s) n (slice_cap s))
       (Heap (<[slice_array s := take (slice_len s) a ++ vs ++ drop n a]>
                (arrays σ))
             (stacks σ))
  else
    let c := growcap (slice_cap s) n in
    Ok (Slice (length (arrays σ)) n c)
       (Heap (arrays σ ++ [elems σ s ++ vs ++ replicate (c - n) nilHandler])
             (stacks σ)).

(** *** Stacks *)

(** [*k]; a nil or dangling pointer panics. *)
Definition deref (k : nat) : Go Kudret := λ σ,
  match stacks σ !! k with
  | Some K => Ok K σ
  | None => Panics "invalid memory address or nil pointer dereference" σ
  end.

Definition store (k : nat) (K : Kudret) : Go unit := λ σ,
  Ok tt (Heap (arrays σ) (<[k := K]> (stacks σ))).

(** [&Kudret{...}] *)
Definition alloc (K : Kudret) : Go nat := λ σ,
  Ok (length (stacks σ)) (Heap (arrays σ) (stacks σ ++ [K])).

(** [func New(handlers ...Handler) *Kudret] *)
Definition New (handlers : slice) : Go nat :=
  hs ← read handlers;
  alloc {| Kudret_handlers := handlers; Kudret_middleware := build hs |}.

(** [func (k *Kudret) With(handlers ...Handler) *Kudret] *)
Definition With (k : nat) (handlers : slice) : Go nat :=
  K ← deref k;
  vs ← read handlers;
  s ← append (Kudret_handlers K) vs;
  New s.

(** [func (k *Kudret) Use(handler Handler)] *)
Definition Use (k : nat) (handler : Handler) : Go unit :=
  match handler with
  | nilHandler => panic "handler cannot be nil"
  | HandlerFunc _ =>
      K ← deref k;
      s ← append (Kudret_handlers K) [handler];
      _ ← store k {| Kudret_middleware := Kudret_middleware K;
                     Kudret_handlers := s |};
      K' ← deref k;
      hs ← read (Kudret_handlers K');
      store k {| Kudret_middleware := build hs;
                 Kudret_handlers := Kudret_handlers K' |}
  end.

(** [func (k *Kudret) UseFunc(handlerFunc func(rw, r, next))] *)
Definition UseFunc (k : nat) (handlerFunc : HandlerFunc_body) : Go unit :=
  Use k (HandlerFunc handlerFunc).

(** [func (k *Kudret) UseHandler(handler http.Handler)] *)
Definition UseHandler (k : nat) (handler : http_Handler) : Go unit :=
  Use k (Wrap handler).

(** [func (k *Kudret) UseHandlerFunc(handlerFunc func(rw, r))] *)
Definition UseHandlerFunc (k : nat) (handlerFunc : http_Handler) : Go unit :=
  Use k (WrapFunc handlerFunc).

(** [func (k *Kudret) Handlers() []Handler] *)
Definition Handlers (k : nat) : Go slice :=
  K ← deref k; ret (Kudret_handlers K).

(** [func (k *Kudret) ServeHTTP(rw, r)]: [k.middleware.ServeHTTP(rw, r)]. *)
Definition Kudret_ServeHTTP (σ : heap) (k : nat)
    (rw : ResponseWriter) (r : Request) (w : World) : result World :=
  match stacks σ !! k with
  | Some K => middleware_ServeHTTP 0 (Kudret_middleware K) rw r w
  | None => Result Panicked w []
  end.

(** The handler list of the stack at [k], as [k.Handlers()] shows it. *)
Definition handlers_of (σ : heap) (k : nat) : option (list Handler) :=
  (λ K, elems σ (Kudret_handlers K)) <$> stacks σ !! k.

(** The chain of the stack at [k]. *)
Definition middleware_of (σ : heap) (k : nat) : option middleware :=
  Kudret_middleware <$> stacks σ !! k.

(** *** Histories and invariants *)

(** A slice is within its backing array. *)
Definition wf_slice (σ : heap) (s : slice) : Prop :=
  slice_len s ≤ slice_cap s
  ∧ slice_cap s ≤ length (array_at σ (slice_array s)).

(** Every stack of the heap holds such a slice. *)
Definition wf (σ : heap) : Prop :=
  ∀ k K, stacks σ !! k = Some K → wf_slice σ (Kudret_handlers K).

(** The arguments of a variadic call: values written out, or a slice spread
    with [...], here the one another stack's [Handlers()] returns. *)
Inductive arguments : Type :=
  | Values (vs : list Handler)
  | Spread (j : nat).

Definition pass (a : arguments) : Go slice :=
  match a with
  | Values vs => variadic vs
  | Spread j => Handlers j
  end.

(** Heaps that calls of [New], [With] and [Use] make from the empty one
    ([UseFunc], [UseHandler] and [UseHandlerFunc] are calls of [Use]). *)
Inductive reachable : heap → Prop :=
  | reach_empty : reachable empty_heap
  | reach_New a σ k σ' :
      reachable σ → (s ← pass a; New s) σ = Ok k σ' → reachable σ'
  | reach_With k a σ k' σ' :
      reachable σ → (s ← pass a; With k s) σ = Ok k' σ' →
      reachable σ'
  | reach_Use k h σ σ' :
      reachable σ → Use k h σ = Ok tt σ' → reachable σ'.

(** The invariant the stack is meant to keep: the chain of every stack is
    [build] of its handler list. *)
Definition in_lockstep (σ : heap) : Prop :=
  ∀ k K, stacks σ !! k = Some K →
    Kudret_middleware K = build (elems σ (Kudret_handlers K)).

(** A history of calls, run from left to right. *)
Inductive call : Type :=
  | CallNew (a : arguments)
  | CallWith (k : nat) (a : arguments)
  | CallUse (k : nat) (h : Handler).

Definition run_call (c : call) : Go unit :=
  match c with
  | CallNew a => s ← pass a; _ ← New s; ret tt
  | CallWith k a => s ← pass a; _ ← With k s; ret tt
  | CallUse k h => Use k h
  end.

Fixpoint run_calls (cs : list call) : Go unit :=
  match cs with
  | [] => ret tt
  | c :: cs' => _ ← run_call c; run_calls cs'
  end.

(** [func (k *Kudret) Run(addr ...string) {}]: the body is empty. *)
Definition Run (k : nat) (addr : list string) : Go unit := ret tt.

(** The chain of every stack is a built one, as long as the stack's
    handler list. *)
Definition chains_fit (σ : heap) : Prop :=
  ∀ k K, stacks σ !! k = Some K →
    ∃ hs, Kudret_middleware K = build hs
          ∧ length hs = slice_len (Kudret_handlers K).

(** No two stacks hold slices with room in the same backing array. *)
Definition separate (σ : heap) : Prop :=
  ∀ j1 j2 K1 K2, j1 ≠ j2 →
    stacks σ !! j1 = Some K1 → stacks σ !! j2 = Some K2 →
    slice_array (Kudret_handlers K1) ≠ slice_array (Kudret_handlers K2)
    ∨ slice_cap (Kudret_handlers K1) = 0
    ∨ slice_cap (Kudret_handlers K2) = 0.

(** Calls that hand no slice of one stack to another: [New] with its
    handlers written out, and [Use]. *)
Definition own_values (c : call) : Prop :=
  match c with
  | CallNew (Values _) => True
  | CallUse _ _ => True
  | CallNew (Spread _) => False
  | CallWith _ _ => False
  end.

End Stack.

Arguments Ok {ResponseWriter Request World A} a σ.
Arguments Panics {ResponseWriter Request World A} msg σ.
Arguments Kudret : clear implicits.
Arguments heap : clear implicits.
Arguments outcome : clear implicits.
Arguments Go : clear implicits.

(** ** Address detection *)

(** [const DefaultAddress = ":8080"] *)
Definition DefaultAddress : string := ":8080".

(** [os.Getenv]: the value of the variable, empty when it is not set. *)
Definition Getenv (env : gmap string string) (key : string) : string :=
  default "" (env !! key).

(** [func detectAddress(addr ...string) string], in the environment [env]. *)
Definition detectAddress (env : gmap string string) (addr : list string)
    : string :=
  match addr with
  | first :: _ => first
  | [] =>
      let port := Getenv env "PORT" in
      if decide (port ≠ "") then ":" +:+ port else DefaultAddress
  end.

(** ** Scenarios *)

(** A world that is the list of headers written to the response, newest
    first; one writer and one request. *)
Definition headers : Type := list (string * string).

Definition setHeader (key value : string) : headers → headers :=
  cons (key, value).

(** [func(rw, r, next) { rw.Header().Set(key, value); next(rw, r) }] *)
Definition continuing (key value : string) : Handler unit unit headers :=
  HandlerFunc (λ rw r, Effect (setHeader key value) (callNext rw r Return)).

(** [func(rw, r, next) { rw.Header().Set(key, value) }] *)
Definition stopping (key value : string) : Handler unit unit headers :=
  HandlerFunc (λ rw r, Effect (setHeader key value) Return).

(** [func(rw, r, next) { next(rw, r); next(rw, r); next(rw, r) }] *)
Definition thrice : Handler unit unit headers :=
  HandlerFunc (λ rw r,
    callNext rw r (callNext rw r (callNext rw r Return))).

(** [func(rw, r) { panic(http.ErrAbortHandler) }] *)
Definition aborting : http_Handler unit unit headers := λ _ _, PPanic.

(** [func(rw, r) { rw.Header().Set(key, value) }] *)
Definition plainHeader (key value : string) : http_Handler unit unit headers :=
  λ _ _, PEffect (setHeader key value) PReturn.

(** [k := New(); k.Use(A); k.Use(B); k.Use(C); k1 := k.With(D); k.With(E)]:
    the stacks are at addresses 0 ([k]), 1 ([k1]) and 2. *)
Definition two_derivations : list (call (ResponseWriter := unit)
                                        (Request := unit) (World := headers)) :=
  [ CallNew (Values []);
    CallUse 0 (continuing "A" "1");
    CallUse 0 (continuing "B" "1");
    CallUse 0 (continuing "C" "1");
    CallWith 0 (Values [continuing "D" "1"]);
    CallWith 0 (Values [continuing "E" "1"]) ].

(** [k := New(); k.Use(A); k.Use(B); k.Use(C); k1 := k.With(D); k.Use(E)] *)
Definition derivation_then_Use : list (call (ResponseWriter := unit)
                                            (Request := unit)
                                            (World := headers)) :=
  [ CallNew (Values []);
    CallUse 0 (continuing "A" "1");
    CallUse 0 (continuing "B" "1");
    CallUse 0 (continuing "C" "1");
    CallWith 0 (Values [continuing "D" "1"]);
    CallUse 0 (continuing "E" "1") ].

(** [k := New(); k.Use(A); k.Use(B); k.Use(C); k1 := k.With(D)] *)
Definition one_derivation : list (call (ResponseWriter := unit)
                                       (Request := unit) (World := headers)) :=
  [ CallNew (Values []);
    CallUse 0 (continuing "A" "1");
    CallUse 0 (continuing "B" "1");
    CallUse 0 (continuing "C" "1");
    CallWith 0 (Values [continuing "D" "1"]) ].

(** [k := New(A); k.Use(B); l := New(); l.Use(C); k.Use(D)] *)
Definition two_own_stacks : list (call (ResponseWriter := unit)
                                       (Request := unit) (World := headers)) :=
  [ CallNew (Values [continuing "A" "1"]);
    CallUse 0 (continuing "B" "1");
    CallNew (Values []);
    CallUse 1 (continuing "C" "1");
    CallUse 0 (continuing "D" "1") ].

Definition heap_after (cs : list call) : heap unit unit headers :=
  match run_calls growslice_cap cs empty_heap with
  | Ok _ σ => σ
  | Panics _ σ => σ
  end.

(** * Part II: lemmas and theorems

    ** Lists of positions *)

Lemma filter_none_nat (P : nat → Prop) `{!∀ x, Decision (P x)} l :
  Forall (λ x, ¬ P x) l → filter P l = [].
Proof.
  induction 1 as [|x l Hx _ IH]; [reflexivity|].
  rewrite filter_cons_False by assumption. exact IH.
Qed.

Lemma filter_all_nat (P : nat → Prop) `{!∀ x, Decision (P x)} l :
  Forall P l → filter P l = l.
Proof.
  induction 1 as [|x l Hx _ IH]; [reflexivity|].
  rewrite filter_cons_True by assumption. now rewrite IH.
Qed.

Lemma elem_of_firsts x l : x ∈ firsts l ↔ x ∈ l.
Proof.
  induction l as [|y l IH]; simpl; [reflexivity|].
  rewrite !elem_of_cons, list_elem_of_filter, IH.
  destruct (decide (x = y)); intuition congruence.
Qed.

Lemma firsts_app l1 l2 :
  firsts (l1 ++ l2) = firsts l1 ++ filter (λ y, y ∉ l1) (firsts l2).
Proof.
  induction l1 as [|x l1 IH]; simpl.
  - symmetry. apply filter_all_nat. apply Forall_forall. intros y _.
    apply not_elem_of_nil.
  - rewrite IH, filter_app, list_filter_filter. f_equal. f_equal.
    apply list_filter_iff. intros y. rewrite not_elem_of_cons. reflexivity.
Qed.

Lemma firsts_filter (P : nat → Prop) `{!∀ x, Decision (P x)} l :
  firsts (filter P l) = filter P (firsts l).
Proof.
  induction l as [|x l IH]; [reflexivity|].
  cbn [firsts]. destruct (decide (P x)) as [Hx|Hx].
  - rewrite !filter_cons_True by assumption. cbn [firsts]. rewrite IH.
    f_equal. rewrite !list_filter_filter. apply list_filter_iff.
    intros y. split; intros [? ?]; split; assumption.
  - rewrite !filter_cons_False by assumption. rewrite IH.
    rewrite list_filter_filter. apply list_filter_iff.
    intros y. split; [|intros [? _]; assumption].
    intros Hy. split; [assumption|congruence].
Qed.

Lemma filter_outside_seq (l : list nat) a k1 k2 :
  (∀ y, y ∈ l ↔ a ≤ y < a + k1) →
  filter (λ y, y ∉ l) (seq a k2) = seq (a + k1) (k2 - k1).
Proof.
  intros Hl. induction k2 as [|k2 IH]; [reflexivity|].
  rewrite seq_S, filter_app, IH.
  destruct (decide (k1 ≤ k2)) as [Hle|Hgt].
  - rewrite filter_cons_True by (rewrite Hl; lia).
    replace (S k2 - k1) with (S (k2 - k1)) by lia.
    rewrite seq_S. replace (a + k1 + (k2 - k1)) with (a + k2) by lia.
    reflexivity.
  - rewrite filter_cons_False by (intros Hn; apply Hn; rewrite Hl; lia).
    replace (S k2 - k1) with 0 by lia. replace (k2 - k1) with 0 by lia.
    reflexivity.
Qed.

(** Two runs that each visit an initial stretch of positions visit, one after
    the other, the longer stretch. *)
Lemma firsts_stretch_app l1 l2 a k1 k2 :
  firsts l1 = seq a k1 → firsts l2 = seq a k2 →
  firsts (l1 ++ l2) = seq a (k1 `max` k2).
Proof.
  intros H1 H2. rewrite firsts_app, H1, H2.
  rewrite (filter_outside_seq l1 a k1 k2).
  - replace (k1 `max` k2) with (k1 + (k2 - k1)) by lia.
    rewrite seq_app. reflexivity.
  - intros y. rewrite <- elem_of_firsts, H1. apply elem_of_seq.
Qed.

Lemma filter_lt_seq n m : filter (λ p, p < n) (seq 0 m) = seq 0 (n `min` m).
Proof.
  induction m as [|m IH]; [now rewrite Nat.min_0_r|].
  rewrite seq_S, filter_app, IH. simpl.
  destruct (decide (m < n)) as [Hlt|Hge].
  - rewrite filter_cons_True by assumption.
    replace (n `min` S m) with (S (n `min` m)) by lia.
    rewrite seq_S. simpl. replace (n `min` m) with m by lia.
    reflexivity.
  - rewrite filter_cons_False by assumption.
    rewrite app_nil_r. f_equal. lia.
Qed.

(** ** Traces of a chain *)

Section Traces.

Context {ResponseWriter Request World : Type}.
Local Abbreviation Handler := (Handler ResponseWriter Request World).
Local Abbreviation code := (code ResponseWriter Request World).
Local Abbreviation continuation := (continuation ResponseWriter Request World).

Lemma build_cons (h : Handler) (rest : list Handler) :
  build (h :: rest) = {| handler := h; next := Some (build rest) |}.
Proof. destruct rest; reflexivity. Qed.

Lemma invocations_app t1 t2 j :
  invocations (t1 ++ t2) j = invocations t1 j + invocations t2 j.
Proof.
  induction t1 as [|[p|p] t1 IH]; simpl; [reflexivity| |assumption].
  rewrite IH. lia.
Qed.

Lemma yields_app t1 t2 i : yields (t1 ++ t2) i = yields t1 i + yields t2 i.
Proof.
  induction t1 as [|[p|p] t1 IH]; simpl; [reflexivity|assumption|].
  rewrite IH. lia.
Qed.

Lemma invoked_app t1 t2 : invoked (t1 ++ t2) = invoked t1 ++ invoked t2.
Proof.
  induction t1 as [|[p|p] t1 IH]; simpl; [reflexivity| |assumption].
  now rewrite IH.
Qed.

Lemma exec_handler_trace pos (c : code) (next : continuation) w
    (S : list event → Prop) :
  (∀ rw r w', S (res_events (next rw r w'))) →
  handler_trace pos S (res_events (exec pos c next w)).
Proof.
  intros Hnext. revert w.
  induction c as [| |f k IH|f IH|rw r k IH]; intros w; simpl.
  - constructor.
  - constructor.
  - apply IH.
  - apply IH.
  - constructor; [apply Hnext|apply IH].
Qed.

Lemma serve_chain_trace (hs : list Handler) pos rw r w :
  chain_trace (length hs) pos
    (res_events (middleware_ServeHTTP pos (build hs) rw r w)).
Proof.
  revert pos rw r w. induction hs as [|h rest IH]; intros pos rw r w.
  - simpl. eexists. split; reflexivity.
  - rewrite build_cons. cbn [length chain_trace middleware_ServeHTTP].
    destruct h as [|h]; simpl.
    + eexists. split; [reflexivity|constructor].
    + eexists. split; [reflexivity|].
      apply exec_handler_trace. intros. apply IH.
Qed.

(** The position is a label: what a chain does to the world, and how it
    ends, is the same wherever it is said to start. *)
Lemma exec_ghost_position pos pos' (c : code) (next next' : continuation) w :
  (∀ rw r w', res_status (next rw r w') = res_status (next' rw r w')
              ∧ res_world (next rw r w') = res_world (next' rw r w')) →
  res_status (exec pos c next w) = res_status (exec pos' c next' w)
  ∧ res_world (exec pos c next w) = res_world (exec pos' c next' w).
Proof.
  intros Hnext. revert w.
  induction c as [| |f k IH|f IH|rw r k IH]; intros w; simpl;
    [split; reflexivity|split; reflexivity|apply IH|apply IH|].
  destruct (Hnext rw r w) as [-> ->]. apply IH.
Qed.

Lemma serve_ghost_position (hs : list Handler) pos pos' rw r w :
  res_status (middleware_ServeHTTP pos (build hs) rw r w)
    = res_status (middleware_ServeHTTP pos' (build hs) rw r w)
  ∧ res_world (middleware_ServeHTTP pos (build hs) rw r w)
    = res_world (middleware_ServeHTTP pos' (build hs) rw r w).
Proof.
  revert pos pos' rw r w.
  induction hs as [|h rest IH]; intros pos pos' rw r w.
  - split; reflexivity.
  - rewrite build_cons. cbn [middleware_ServeHTTP res_status res_world].
    destruct h as [|h]; [split; reflexivity|]. cbn [Handler_ServeHTTP].
    apply exec_ghost_position. intros. apply IH.
Qed.

(** *** Counting along a trace *)

(** A handler that never yields adds nothing to the trace. *)
Lemma handler_trace_no_yield pos S t :
  handler_trace pos S t → yields t pos = 0 → t = [].
Proof.
  intros [|s t' _ _]; [reflexivity|]. simpl.
  rewrite decide_True by reflexivity. discriminate.
Qed.

(** Events of a node at [pos] with [n] handlers below it lie in
    [pos .. pos + n] (invocations) and [pos .. pos + n - 1] (yields). *)
Lemma chain_trace_bounds n pos t :
  chain_trace n pos t →
  ∀ j, (j < pos ∨ pos + n < j → invocations t j = 0) ∧
       (j < pos ∨ pos + n ≤ j → yields t j = 0).
Proof.
  revert pos t. induction n as [|n IH]; intros pos t (t' & -> & Ht') j.
  - subst t'. simpl. split; intros Hj.
    + rewrite decide_False by lia. reflexivity.
    + reflexivity.
  - cbn [invocations yields].
    assert (Hsub : (j < pos ∨ pos + S n < j → invocations t' j = 0) ∧
                   (j < pos ∨ pos + S n ≤ j → yields t' j = 0)).
    { induction Ht' as [|s t'' Hs _ IHt]; [split; reflexivity|].
      destruct (IH _ _ Hs j) as [Hi Hy]. destruct IHt as [Hi' Hy'].
      cbn [invocations yields]. rewrite invocations_app, yields_app.
      split; intros Hj.
      - rewrite Hi, Hi' by lia. reflexivity.
      - rewrite decide_False by lia. rewrite Hy, Hy' by lia. reflexivity. }
    destruct Hsub as [Hi Hy]. split; intros Hj.
    + rewrite decide_False by lia. rewrite Hi by lia. reflexivity.
    + apply Hy. lia.
Qed.

(** The node itself is invoked exactly once. *)
Lemma chain_trace_head n pos t :
  chain_trace n pos t → invocations t pos = 1.
Proof.
  destruct n as [|n]; intros (t' & -> & Ht'); simpl;
    rewrite decide_True by reflexivity.
  - subst t'. reflexivity.
  - assert (invocations t' pos = 0) as ->; [|reflexivity].
    induction Ht' as [|s t'' Hs _ IHt]; [reflexivity|].
    cbn [invocations]. rewrite invocations_app, IHt.
    destruct (chain_trace_bounds _ _ _ Hs pos) as [-> _]; [reflexivity|lia].
Qed.

(** Every call of a continuation is one invocation of the next node, and
    there is no other way into that node. *)
Lemma chain_trace_yield_invoke n pos t :
  chain_trace n pos t →
  ∀ i, pos ≤ i → invocations t (S i) = yields t i.
Proof.
  revert pos t. induction n as [|n IH]; intros pos t (t' & -> & Ht') i Hi.
  - subst t'. simpl. rewrite decide_False by lia. reflexivity.
  - cbn [invocations yields]. rewrite decide_False by lia. simpl.
    induction Ht' as [|s t'' Hs _ IHt]; [reflexivity|].
    cbn [invocations yields]. rewrite invocations_app, yields_app, IHt.
    destruct (decide (pos = i)) as [->|Hne].
    + rewrite (chain_trace_head _ _ _ Hs).
      destruct (chain_trace_bounds _ _ _ Hs i) as [_ ->]; [lia|lia].
    + rewrite (IH _ _ Hs i) by lia. reflexivity.
Qed.

(** Short-circuit: below a handler that does not yield nothing runs. *)
Lemma chain_trace_cut n pos t :
  chain_trace n pos t →
  ∀ i j, pos ≤ i → i < j → yields t i = 0 → invocations t j = 0.
Proof.
  revert pos t. induction n as [|n IH]; intros pos t (t' & -> & Ht') i j Hi Hj.
  - subst t'. simpl. intros _. rewrite decide_False by lia. reflexivity.
  - cbn [invocations yields]. rewrite decide_False by lia. simpl.
    induction Ht' as [|s t'' Hs _ IHt]; [reflexivity|].
    cbn [yields invocations]. rewrite yields_app, invocations_app.
    destruct (decide (pos = i)) as [->|Hne]; [discriminate|].
    intros Hy. rewrite IHt by lia.
    rewrite (IH _ _ Hs i j) by lia. reflexivity.
Qed.

(** *** Order of the invocations *)

Lemma invoked_elem t j : j ∈ invoked t ↔ 0 < invocations t j.
Proof.
  induction t as [|[p|p] t IH]; simpl.
  - rewrite elem_of_nil. lia.
  - rewrite elem_of_cons, IH. destruct (decide (p = j)); intuition lia.
  - assumption.
Qed.

Lemma chain_trace_invoked_ge n pos t :
  chain_trace n pos t → Forall (λ p, pos ≤ p) (invoked t).
Proof.
  intros Ht. apply Forall_forall. intros p Hp%invoked_elem.
  destruct (decide (pos ≤ p)) as [|Hlt]; [assumption|].
  destruct (chain_trace_bounds _ _ _ Ht p) as [Hz _].
  rewrite Hz in Hp by lia. lia.
Qed.

Lemma handler_trace_invoked_ge n pos t :
  handler_trace pos (chain_trace n (S pos)) t →
  Forall (λ p, S pos ≤ p) (invoked t).
Proof.
  induction 1 as [|s u Hs _ IHu]; [constructor|].
  cbn [invoked]. rewrite invoked_app. apply Forall_app. split;
    [eapply chain_trace_invoked_ge; eassumption|assumption].
Qed.

(** With one yield per handler the registered handlers run once each, in
    the order of the list. *)
Lemma chain_trace_exact n pos t b :
  chain_trace n pos t → b = pos + n →
  (∀ i, pos ≤ i → i + 1 < b → yields t i = 1) →
  filter (λ p, p < b) (invoked t) = seq pos n.
Proof.
  revert pos t. induction n as [|n IH]; intros pos t (t' & -> & Ht') -> Hy.
  - subst t'. simpl. rewrite filter_cons_False by lia. reflexivity.
  - cbn [invoked seq]. rewrite filter_cons_True by lia. f_equal.
    destruct n as [|n].
    + apply filter_none_nat. apply handler_trace_invoked_ge in Ht'.
      eapply Forall_impl; [exact Ht'|]. intros p Hp. simpl in Hp. lia.
    + destruct Ht' as [|s t'' Hs Ht''].
      * specialize (Hy pos). simpl in Hy. lia.
      * assert (Hone := Hy pos (le_n _) ltac:(lia)).
        cbn [yields] in Hone. rewrite decide_True in Hone by reflexivity.
        rewrite yields_app in Hone.
        assert (t'' = []) as ->.
        { eapply handler_trace_no_yield; [eassumption|lia]. }
        rewrite app_nil_r. cbn [invoked].
        apply IH; [assumption|lia|].
        intros i Hi Hlt. specialize (Hy i ltac:(lia) Hlt).
        cbn [yields] in Hy. rewrite decide_False in Hy by lia.
        rewrite app_nil_r in Hy. exact Hy.
Qed.

(** With at most one yield per handler there are at most [n + 1]
    invocations, the sentinel's included. *)
Lemma chain_trace_linear n pos t :
  chain_trace n pos t → (∀ i, yields t i ≤ 1) → length (invoked t) ≤ S n.
Proof.
  revert pos t. induction n as [|n IH]; intros pos t (t' & -> & Ht') Hy.
  - subst t'. simpl. lia.
  - cbn [invoked length]. apply le_n_S.
    destruct Ht' as [|s t'' Hs Ht'']; [simpl; lia|].
    assert (Hone := Hy pos). cbn [yields] in Hone.
    rewrite decide_True in Hone by reflexivity. rewrite yields_app in Hone.
    assert (t'' = []) as ->.
    { eapply handler_trace_no_yield; [eassumption|lia]. }
    rewrite app_nil_r. cbn [invoked]. apply (IH (S pos)); [assumption|].
    intros i. specialize (Hy i). cbn [yields] in Hy.
    rewrite app_nil_r in Hy. lia.
Qed.

(** Whatever the handlers do, the positions a dispatch reaches for the
    first time come in the order of the chain. *)
Lemma handler_trace_firsts n pos t :
  (∀ s, chain_trace n (S pos) s →
        ∃ k, k ≤ n ∧ firsts (invoked s) = seq (S pos) (S k)) →
  handler_trace pos (chain_trace n (S pos)) t →
  ∃ k, k ≤ S n ∧ firsts (invoked t) = seq (S pos) k.
Proof.
  intros Hsub. induction 1 as [|s u Hs _ (ku & Hku & Hu)].
  - exists 0. split; [lia|reflexivity].
  - destruct (Hsub _ Hs) as (ks & Hks & Hfs).
    exists (S ks `max` ku). split; [lia|].
    cbn [invoked]. rewrite invoked_app. now apply firsts_stretch_app.
Qed.

Lemma chain_trace_firsts n pos t :
  chain_trace n pos t → ∃ k, k ≤ n ∧ firsts (invoked t) = seq pos (S k).
Proof.
  revert pos t. induction n as [|n IH]; intros pos t (t' & -> & Ht').
  - subst t'. exists 0. split; [lia|reflexivity].
  - destruct (handler_trace_firsts n pos t') as (k & Hk & Hf);
      [intros s Hs; apply IH, Hs|assumption|].
    exists k. split; [assumption|].
    cbn [invoked firsts seq]. rewrite Hf. f_equal.
    apply filter_all_nat, Forall_seq. intros j Hj. lia.
Qed.

End Traces.

(** ** Dispatch through a built chain *)

Section Dispatch.

Context {ResponseWriter Request World : Type}.
Local Abbreviation Handler := (Handler ResponseWriter Request World).
Local Abbreviation http_Handler := (http_Handler ResponseWriter Request World).
Local Abbreviation continuation := (continuation ResponseWriter Request World).

Lemma dispatch_chain_trace (hs : list Handler) rw r w :
  chain_trace (length hs) 0 (res_events (dispatch hs rw r w)).
Proof. apply serve_chain_trace. Qed.

(** Every position below one that is reached has been reached too. *)
Lemma dispatch_reaches (hs : list Handler) rw r w :
  (∀ i, i + 1 < length hs → 1 ≤ yields (res_events (dispatch hs rw r w)) i) →
  ∀ j, j < length hs → j ∈ invoked (res_events (dispatch hs rw r w)).
Proof.
  intros Hy j Hj. apply invoked_elem.
  pose proof (dispatch_chain_trace hs rw r w) as Ht.
  destruct j as [|j].
  - rewrite (chain_trace_head _ _ _ Ht). lia.
  - rewrite (chain_trace_yield_invoke _ _ _ Ht j) by lia.
    specialize (Hy j). lia.
Qed.

(** A body does the same with two continuations that do the same. *)
Lemma exec_ext pos (c : code ResponseWriter Request World)
    (next next' : continuation) w :
  (∀ rw r w', next rw r w' = next' rw r w') →
  exec pos c next w = exec pos c next' w.
Proof.
  intros Hnext. revert w.
  induction c as [| |f k IH|f IH|rw r k IH]; intros w; simpl;
    [reflexivity|reflexivity|apply IH|apply IH|].
  rewrite <- Hnext. now rewrite IH.
Qed.

(** The node at depth [i] of [build hs] holds [hs[i]], and serving it calls
    that handler with the next node as its continuation. *)
Lemma serve_run_in_order (hs : list Handler) pos rw r w :
  middleware_ServeHTTP pos (build hs) rw r w = run_in_order pos hs rw r w.
Proof.
  revert pos rw r w. induction hs as [|h rest IH]; intros pos rw r w;
    [reflexivity|].
  rewrite build_cons. cbn [middleware_ServeHTTP run_in_order].
  destruct h as [|h]; [reflexivity|]. cbn [Handler_ServeHTTP].
  rewrite (exec_ext pos (h rw r) _ (run_in_order (S pos) rest));
    [reflexivity|]. intros. apply IH.
Qed.

(** Handlers that work before and after their one call of [next]: the work
    before is done in the order of the list, the work after in the reverse
    order. *)
Lemma serve_around (ps : list ((World → World) * (World → World)))
    pos (rw : ResponseWriter) (r : Request) w :
  res_status (middleware_ServeHTTP pos
                (build (map (λ p, around p.1 p.2) ps)) rw r w) = Returned
  ∧ res_world (middleware_ServeHTTP pos
                 (build (map (λ p, around p.1 p.2) ps)) rw r w)
    = foldr (λ p w', p.2 w') (foldl (λ w' p, p.1 w') w ps) ps.
Proof.
  revert pos w. induction ps as [|[before after] ps IH]; intros pos w;
    [split; reflexivity|].
  cbn [map foldl foldr fst snd]. rewrite build_cons.
  cbn [middleware_ServeHTTP Handler_ServeHTTP around exec callNext
       res_status res_world].
  destruct (IH (S pos) (before w)) as [-> ->]. split; reflexivity.
Qed.

(** C1. A dispatch through the chain [build] makes of a handler list runs
    the handlers of the list in the order of registration.
    - What runs: the dispatch is, result for result, [run_in_order]: the
      node invoked as position [i] calls the handler registered at [i],
      with the call of the handler registered at [i + 1] as its [next].
    - What that means for handlers that do their work around one call of
      [next]: the work before is done in registration order and the work
      after in reverse order, and the dispatch returns.
    - Order of the invocations, for any handlers: if during the dispatch
      every handler before the last one calls the continuation it is
      passed, every registered handler is invoked and the first invocations
      come exactly in the order of registration; if each of them calls it
      once, the invocations of the registered handlers are exactly
      positions [0, 1, ..., n-1], once each and in that order. *)
Theorem dispatch_registration_order (hs : list Handler) rw r w :
  dispatch hs rw r w = run_in_order 0 hs rw r w
  ∧ (∀ ps : list ((World → World) * (World → World)),
       res_status (dispatch (map (λ p, around p.1 p.2) ps) rw r w) = Returned
       ∧ res_world (dispatch (map (λ p, around p.1 p.2) ps) rw r w)
         = foldr (λ p w', p.2 w') (foldl (λ w' p, p.1 w') w ps) ps)
  ∧ ((∀ i, i + 1 < length hs →
           1 ≤ yields (res_events (dispatch hs rw r w)) i) →
     firsts (registered (length hs) (res_events (dispatch hs rw r w)))
       = seq 0 (length hs)
     ∧ ((∀ i, i + 1 < length hs →
              yields (res_events (dispatch hs rw r w)) i = 1) →
        registered (length hs) (res_events (dispatch hs rw r w))
          = seq 0 (length hs))).
Proof.
  split; [apply serve_run_in_order|]. split; [intros ps; apply serve_around|].
  intros Hy. pose proof (dispatch_chain_trace hs rw r w) as Ht. split.
  - unfold registered. rewrite firsts_filter.
    destruct (chain_trace_firsts _ _ _ Ht) as (k & Hk & Hf).
    rewrite Hf, filter_lt_seq. f_equal.
    destruct (length hs) as [|n] eqn:Hn; [reflexivity|].
    assert (Hin : n ∈ invoked (res_events (dispatch hs rw r w))).
    { apply dispatch_reaches; [rewrite Hn; exact Hy|lia]. }
    apply elem_of_firsts in Hin. rewrite Hf in Hin.
    apply elem_of_seq in Hin. lia.
  - intros Hone. unfold registered.
    apply (chain_trace_exact _ 0 _ _ Ht); [reflexivity|].
    intros i _ Hi. apply Hone, Hi.
Qed.

(** C2. For every handler list and every position [i], if during a dispatch
    the handler at position [i] does not call the continuation it was
    passed, no node at a position greater than [i] is invoked during that
    dispatch. *)
Theorem dispatch_short_circuit (hs : list Handler) (i : nat) rw r w :
  yields (res_events (dispatch hs rw r w)) i = 0 →
  ∀ j, i < j → invocations (res_events (dispatch hs rw r w)) j = 0.
Proof.
  intros Hy j Hj.
  apply (chain_trace_cut _ 0 _ (dispatch_chain_trace hs rw r w) i j);
    [lia|assumption|assumption].
Qed.

(** C3. The chain of the empty list is the sentinel [voidMiddleware]: a
    no-op handler in front of a zero-valued node.  Dispatching through it
    returns normally, leaves the world as it was and invokes nothing but the
    sentinel.  The zero-valued node would panic if it were asked to serve,
    and in no dispatch, through the chain of any list, is it asked to. *)
Theorem dispatch_empty rw r (w : World) :
  build (@nil Handler) = voidMiddleware
  ∧ handler (@voidMiddleware ResponseWriter Request World)
      = HandlerFunc (λ _ _, Return)
  ∧ next (@voidMiddleware ResponseWriter Request World) = Some zeroMiddleware
  ∧ dispatch (@nil Handler) rw r w = Result Returned w [Invoke 0]
  ∧ registered 0 (res_events (dispatch (@nil Handler) rw r w)) = []
  ∧ (∀ pos, res_status (middleware_ServeHTTP pos zeroMiddleware rw r w)
            = Panicked)
  ∧ (∀ (hs : list Handler) rw' r' w',
       invocations (res_events (dispatch hs rw' r' w')) (S (length hs)) = 0).
Proof.
  repeat split; try reflexivity.
  intros hs rw' r' w'.
  destruct (chain_trace_bounds _ _ _ (dispatch_chain_trace hs rw' r' w')
              (S (length hs))) as [Hz _].
  apply Hz. lia.
Qed.

(** *** Adapters *)

Lemma exec_andThen pos p (c : code ResponseWriter Request World)
    (next : continuation) w :
  exec pos (andThen p c) next w =
    match run_plain p w with
    | (Returned, w1) => exec pos c next w1
    | (Panicked, w1) => Result Panicked w1 []
    end.
Proof.
  revert w. induction p as [| |f k IH|f IH]; intros w; simpl;
    [reflexivity|reflexivity|apply IH|apply IH].
Qed.

Lemma exec_adapter (handler : http_Handler) pos rw r (next : continuation) w :
  exec pos (andThen (handler rw r) (callNext rw r Return)) next w
  = adapted handler pos rw r next w.
Proof.
  rewrite exec_andThen. unfold adapted.
  destruct (run_plain (handler rw r) w) as [[|] w1]; [|reflexivity].
  simpl. destruct (res_status (next rw r w1)); simpl;
    rewrite app_nil_r; reflexivity.
Qed.

(** C7, as amended.  A handler made by [Wrap] or [WrapFunc], called with any
    continuation, runs the wrapped plain handler first; when that returns,
    it calls the continuation once, with the writer and request it was
    given, and ends as the continuation ends; when the wrapped handler
    panics, the continuation is not called.  So in a chain, an adapter whose
    plain handler returns always reaches the node after it, exactly once. *)
Theorem adapters_call_next (handler : http_Handler) (hs : list Handler)
    rw r (w : World) :
  (∀ pos next,
     Handler_ServeHTTP pos (Wrap handler) rw r next w
       = adapted handler pos rw r next w
     ∧ Handler_ServeHTTP pos (WrapFunc handler) rw r next w
       = adapted handler pos rw r next w)
  ∧ (fst (run_plain (handler rw r) w) = Returned →
     yields (res_events (dispatch (Wrap handler :: hs) rw r w)) 0 = 1
     ∧ invocations (res_events (dispatch (Wrap handler :: hs) rw r w)) 1 = 1
     ∧ yields (res_events (dispatch (WrapFunc handler :: hs) rw r w)) 0 = 1
     ∧ invocations (res_events (dispatch (WrapFunc handler :: hs) rw r w)) 1
         = 1).
Proof.
  split.
  - intros pos next. split; apply exec_adapter.
  - intros Hret.
    assert (Hy : yields (res_events (dispatch (Wrap handler :: hs) rw r w)) 0
                 = 1).
    { unfold dispatch. rewrite build_cons.
      cbn [Wrap middleware_ServeHTTP Handler_ServeHTTP res_events yields].
      rewrite exec_adapter. unfold adapted.
      destruct (run_plain (handler rw r) w) as [[|] w1]; [|discriminate].
      cbn [res_events yields]. rewrite decide_True by reflexivity.
      pose proof (serve_chain_trace hs 1 rw r w1) as Ht.
      destruct (chain_trace_bounds _ _ _ Ht 0) as [_ ->]; [reflexivity|lia]. }
    assert (Hi : invocations
                   (res_events (dispatch (Wrap handler :: hs) rw r w)) 1 = 1).
    { rewrite (chain_trace_yield_invoke _ _ _
                 (dispatch_chain_trace (Wrap handler :: hs) rw r w) 0) by lia.
      exact Hy. }
    repeat split; assumption.
Qed.

(** *** Size of a dispatch *)

Lemma nodes_build (hs : list Handler) : nodes (build hs) = length hs + 2.
Proof.
  induction hs as [|h rest IH]; [reflexivity|].
  rewrite build_cons. cbn [nodes length]. rewrite IH. reflexivity.
Qed.

(** C9, as amended.  The chain [build] makes is a finite linked list of
    [length hs + 2] nodes, and a dispatch through it is a total function of
    the handlers' code: it ends, with a result, whenever the handlers do.
    When no handler calls its continuation more than once, it invokes at most
    [length hs + 1] nodes, the sentinel included. *)
Theorem dispatch_invocations_bound (hs : list Handler) rw r w :
  nodes (build hs) = length hs + 2
  ∧ (∃ st w' t, dispatch hs rw r w = Result st w' t)
  ∧ ((∀ i, yields (res_events (dispatch hs rw r w)) i ≤ 1) →
     length (invoked (res_events (dispatch hs rw r w))) ≤ length hs + 1).
Proof.
  split; [apply nodes_build|]. split.
  - destruct (dispatch hs rw r w) as [st w' t]. now exists st, w', t.
  - intros Hy. rewrite Nat.add_1_r.
    apply (chain_trace_linear _ 0 _ (dispatch_chain_trace hs rw r w) Hy).
Qed.

End Dispatch.

(** ** More on dispatch *)

Section DispatchMore.

Context {ResponseWriter Request World : Type}.
Local Abbreviation Handler := (Handler ResponseWriter Request World).
Local Abbreviation code := (code ResponseWriter Request World).
Local Abbreviation http_Handler := (http_Handler ResponseWriter Request World).
Local Abbreviation continuation := (continuation ResponseWriter Request World).

(** A body run with two continuations that agree wherever the handler at
    [i] stays silent gives the same result, when that handler is silent. *)
Lemma exec_agree pos i (c : code) (next next' : continuation) w :
  (pos ≠ i → ∀ rw r w',
     yields (res_events (next rw r w')) i = 0 → next rw r w' = next' rw r w') →
  yields (res_events (exec pos c next w)) i = 0 →
  exec pos c next w = exec pos c next' w.
Proof.
  intros Hnext. revert w.
  induction c as [| |f k IH|f IH|rw r k IH]; intros w; simpl;
    [reflexivity|reflexivity|apply IH|apply IH|].
  destruct (decide (pos = i)) as [->|Hne]; [discriminate|].
  rewrite yields_app. intros Hy.
  assert (E : next rw r w = next' rw r w) by (apply Hnext; [assumption|lia]).
  rewrite <- E. rewrite IH by lia. reflexivity.
Qed.

Lemma serve_truncated (hs : list Handler) pos i rw r w :
  pos ≤ i →
  yields (res_events (middleware_ServeHTTP pos (build hs) rw r w)) i = 0 →
  middleware_ServeHTTP pos (build hs) rw r w
  = middleware_ServeHTTP pos (build (take (S (i - pos)) hs)) rw r w.
Proof.
  revert pos rw r w. induction hs as [|h rest IH]; intros pos rw r w Hpos;
    [reflexivity|].
  cbn [take]. rewrite !build_cons.
  cbn [middleware_ServeHTTP res_events yields].
  destruct h as [|h]; [reflexivity|]. cbn [Handler_ServeHTTP]. intros Hy.
  rewrite (exec_agree pos i (h rw r) _
             (middleware_ServeHTTP (S pos) (build (take (i - pos) rest))));
    [reflexivity| |assumption].
  intros Hne rw' r' w' Hy'.
  replace (i - pos) with (S (i - S pos)) by lia.
  apply IH; [lia|assumption].
Qed.

(** X1. A handler that does not call its continuation cuts the chain off
    for good: the dispatch ends, leaves the world and shows the trace that
    the dispatch through the list up to and including that handler does. *)
Theorem dispatch_truncated (hs : list Handler) (i : nat) rw r w :
  yields (res_events (dispatch hs rw r w)) i = 0 →
  dispatch hs rw r w = dispatch (take (S i) hs) rw r w.
Proof.
  intros Hy. unfold dispatch.
  rewrite (serve_truncated hs 0 i rw r w) by (lia || assumption).
  now rewrite Nat.sub_0_r.
Qed.

(** X2. The head of the chain is invoked once per dispatch, and the node at
    position [i + 1] exactly as often as the handler at [i] calls its
    continuation: a handler that calls it twice runs the rest of the chain
    twice. *)
Theorem dispatch_invocation_counts (hs : list Handler) (i : nat) rw r w :
  invocations (res_events (dispatch hs rw r w)) 0 = 1
  ∧ invocations (res_events (dispatch hs rw r w)) (S i)
    = yields (res_events (dispatch hs rw r w)) i.
Proof.
  pose proof (dispatch_chain_trace hs rw r w) as Ht. split.
  - apply (chain_trace_head _ _ _ Ht).
  - apply (chain_trace_yield_invoke _ _ _ Ht). lia.
Qed.

Lemma serve_adapters (ps : list http_Handler) (hs : list Handler)
    pos rw r w :
  (res_status (middleware_ServeHTTP pos (build (map Wrap ps ++ hs)) rw r w),
   res_world (middleware_ServeHTTP pos (build (map Wrap ps ++ hs)) rw r w))
  = match run_plains ps rw r w with
    | (Returned, w1) =>
        (res_status (middleware_ServeHTTP (pos + length ps) (build hs) rw r w1),
         res_world (middleware_ServeHTTP (pos + length ps) (build hs) rw r w1))
    | (Panicked, w1) => (Panicked, w1)
    end.
Proof.
  revert pos w. induction ps as [|p ps IH]; intros pos w.
  - simpl. now rewrite Nat.add_0_r.
  - cbn [map app run_plains length]. rewrite build_cons.
    cbn [middleware_ServeHTTP Handler_ServeHTTP Wrap res_status res_world].
    rewrite exec_adapter. unfold adapted.
    destruct (run_plain (p rw r) w) as [[|] w1]; [|reflexivity].
    cbn [res_status res_world]. rewrite IH.
    now replace (S pos + length ps) with (pos + S (length ps)) by lia.
Qed.

(** X3. Adapted plain handlers in front of a chain are transparent: they
    run in the order of the list, each on the world the one before left, and
    then the rest of the chain runs as it would alone on the world they
    leave; the first of them that panics ends the dispatch with its panic.
    [WrapFunc] makes the same handler as [Wrap]. *)
Theorem dispatch_adapters_in_sequence (ps : list http_Handler)
    (hs : list Handler) rw r w :
  (res_status (dispatch (map Wrap ps ++ hs) rw r w),
   res_world (dispatch (map Wrap ps ++ hs) rw r w))
  = match run_plains ps rw r w with
    | (Returned, w1) =>
        (res_status (dispatch hs rw r w1), res_world (dispatch hs rw r w1))
    | (Panicked, w1) => (Panicked, w1)
    end
  ∧ map WrapFunc ps = map Wrap ps.
Proof.
  split; [|reflexivity].
  unfold dispatch. rewrite serve_adapters.
  destruct (run_plains ps rw r w) as [[|] w1]; [|reflexivity].
  destruct (serve_ghost_position hs (0 + length ps) 0 rw r w1) as [-> ->].
  reflexivity.
Qed.

Lemma chain_handlers_build (hs : list Handler) :
  chain_handlers (build hs) = hs.
Proof.
  induction hs as [|h rest IH]; [reflexivity|].
  rewrite build_cons. cbn [chain_handlers].
  destruct rest as [|h' rest]; [reflexivity|].
  rewrite build_cons in *. now rewrite IH.
Qed.

(** X12. [build] loses nothing: two handler lists with the same chain are
    the same list. *)
Theorem build_injective (hs hs' : list Handler) :
  build hs = build hs' → hs = hs'.
Proof.
  intros H. rewrite <- (chain_handlers_build hs), H.
  apply chain_handlers_build.
Qed.

Lemma exec_propagates pos i (c : code) (next : continuation) w :
  propagating c →
  (∀ rw r w', 0 < invocations (res_events (next rw r w')) i →
              res_status (next rw r w') = Panicked) →
  0 < invocations (res_events (exec pos c next w)) i →
  res_status (exec pos c next w) = Panicked.
Proof.
  intros Hc Hnext. revert w.
  induction Hc as [| |f k _ IH|f _ IH|rw r k Hk _ IH]; intros w; simpl;
    [lia|lia|apply IH|apply IH|].
  rewrite invocations_app. intros Hi.
  destruct (res_status (next rw r w)) eqn:Hst.
  - apply IH.
    destruct (decide (0 < invocations (res_events (next rw r w)) i))
      as [Hpos|Hz]; [|lia].
    apply Hnext in Hpos. congruence.
  - rewrite Hk. reflexivity.
Qed.

Lemma serve_propagates (hs : list Handler) (h : Handler) pos i rw r w :
  Forall propagates hs → pos ≤ i →
  hs !! (i - pos) = Some h → always_panics h →
  0 < invocations (res_events (middleware_ServeHTTP pos (build hs) rw r w)) i →
  res_status (middleware_ServeHTTP pos (build hs) rw r w) = Panicked.
Proof.
  revert pos rw r w. induction hs as [|h0 rest IH];
    intros pos rw r w Hall Hpos Hi Hh; [discriminate|].
  apply Forall_cons in Hall as [Hh0 Hrest]. rewrite build_cons.
  cbn [middleware_ServeHTTP res_events res_status invocations].
  destruct (decide (pos = i)) as [->|Hne].
  - rewrite Nat.sub_diag in Hi. injection Hi as ->. intros _. apply Hh.
  - replace (i - pos) with (S (i - S pos)) in Hi by lia. cbn in Hi.
    simpl. intros Hinv.
    destruct h0 as [|f]; [simpl in Hinv; lia|]. cbn [Handler_ServeHTTP] in *.
    apply (exec_propagates pos i); [apply Hh0| |exact Hinv].
    intros rw' r' w'. apply IH; [assumption|lia|assumption|assumption].
Qed.

Lemma propagating_andThen (p : plain World) (c : code) :
  propagating c → propagating (andThen p c).
Proof.
  intros Hc. induction p as [| |f k IH|f IH]; simpl;
    [assumption|constructor|now constructor|constructor; intros; apply IH].
Qed.

(** X14. The chain recovers nothing.  When no registered handler recovers a
    panic of its continuation, a handler that panics on every call (the nil
    handler, say) takes the whole dispatch down as soon as its node is
    invoked.  The handlers [Wrap] and [WrapFunc] make recover nothing. *)
Theorem dispatch_propagates_panic (hs : list Handler) (h : Handler)
    (i : nat) rw r w :
  Forall propagates hs → hs !! i = Some h → always_panics h →
  0 < invocations (res_events (dispatch hs rw r w)) i →
  res_status (dispatch hs rw r w) = Panicked
  ∧ always_panics (@nilHandler ResponseWriter Request World)
  ∧ ∀ p : http_Handler, propagates (Wrap p) ∧ propagates (WrapFunc p).
Proof.
  intros Hall Hi Hh Hinv. split; [|split].
  - apply (serve_propagates hs h 0 i); try assumption; [lia|].
    now rewrite Nat.sub_0_r.
  - intros pos rw' r' next w'. reflexivity.
  - intros p. split; intros rw' r'; apply propagating_andThen;
      constructor; (reflexivity || constructor).
Qed.

End DispatchMore.

(** ** Properties of the stack operations *)

Section StackProperties.

Context {ResponseWriter Request World : Type}.
Local Abbreviation Handler := (Handler ResponseWriter Request World).
Local Abbreviation heap := (heap ResponseWriter Request World).
Local Abbreviation Kudret := (Kudret ResponseWriter Request World).

Variable growcap : nat → nat → nat.

Lemma array_at_None (σ : heap) i :
  length (arrays σ) ≤ i → array_at σ i = [].
Proof.
  intros Hi. unfold array_at. now rewrite lookup_ge_None_2.
Qed.

Lemma array_at_alloc (σ : heap) x st :
  array_at (Heap (arrays σ ++ [x]) st) (length (arrays σ)) = x.
Proof.
  unfold array_at. cbn [arrays].
  now rewrite list_lookup_middle.
Qed.

Lemma array_at_alloc_old (σ : heap) x st i :
  i < length (arrays σ) →
  array_at (Heap (arrays σ ++ [x]) st) i = array_at σ i.
Proof.
  intros Hi. unfold array_at. cbn [arrays]. now rewrite lookup_app_l.
Qed.

Lemma elems_same_arrays (σ' σ : heap) s :
  arrays σ' = arrays σ → elems σ' s = elems σ s.
Proof. intros H. unfold elems, array_at. now rewrite H. Qed.

(** [append] returns the old elements followed by the new ones, and the
    slice it was given still shows what it showed. *)
Lemma append_spec (s : slice) (vs : list Handler) (σ : heap) :
  wf_slice σ s →
  ∃ s' σ', append growcap s vs σ = Ok s' σ'
    ∧ stacks σ' = stacks σ
    ∧ elems σ' s' = elems σ s ++ vs
    ∧ elems σ' s = elems σ s.
Proof.
  intros [Hlen Hcap]. unfold append.
  destruct (decide (slice_len s + length vs ≤ slice_cap s)) as [Hfit|Hgrow].
  - eexists _, _. split; [reflexivity|]. split; [reflexivity|].
    set (a := array_at σ (slice_array s)) in *.
    set (x := take (slice_len s) a ++ vs ++ drop (slice_len s + length vs) a).
    assert (Hx : array_at (Heap (<[slice_array s := x]> (arrays σ)) (stacks σ))
                   (slice_array s) = x).
    { destruct (decide (slice_array s < length (arrays σ))) as [Hin|Hout].
      - unfold array_at. cbn [arrays].
        now rewrite list_lookup_insert_eq.
      - unfold array_at. cbn [arrays]. rewrite list_insert_ge by lia.
        fold (array_at σ (slice_array s)). fold a.
        assert (Ha : a = []) by (apply array_at_None; lia).
        subst x. rewrite Ha in *. simpl in Hcap.
        destruct vs; [now rewrite take_nil, drop_nil|simpl in Hfit; lia]. }
    unfold elems. cbn [slice_array slice_len]. rewrite Hx. subst x a.
    split.
    + rewrite app_assoc. apply take_app_length'.
      rewrite length_app, length_take_le by lia. reflexivity.
    + apply take_app_length'. rewrite length_take_le by lia. reflexivity.
  - eexists _, _. split; [reflexivity|]. split; [reflexivity|].
    assert (Hl : length (elems σ s) = slice_len s).
    { unfold elems. apply length_take_le. lia. }
    split.
    + unfold elems at 1. cbn [slice_array slice_len].
      rewrite array_at_alloc, app_assoc. apply take_app_length'.
      rewrite length_app, Hl. reflexivity.
    + destruct (decide (slice_array s < length (arrays σ))) as [Hin|Hout].
      * unfold elems. now rewrite array_at_alloc_old.
      * rewrite array_at_None in Hcap by lia. simpl in Hcap.
        unfold elems. replace (slice_len s) with 0 by lia. reflexivity.
Qed.

(** [New] stores the slice it is given and builds the chain of its
    elements. *)
Lemma New_builds (handlers : slice) (σ : heap) :
  ∃ σ', New handlers σ = Ok (length (stacks σ)) σ'
    ∧ handlers_of σ' (length (stacks σ)) = Some (elems σ handlers)
    ∧ middleware_of σ' (length (stacks σ)) = Some (build (elems σ handlers)).
Proof.
  eexists. split; [reflexivity|].
  unfold handlers_of, middleware_of. cbn [stacks].
  rewrite list_lookup_middle by reflexivity. split; reflexivity.
Qed.

(** C10. [Use] with the nil handler panics before it touches anything: the
    heap at the panic is the heap of the call, so the stack's handler list
    and chain are what they were. *)
Theorem Use_nil_leaves_heap (k : nat) (σ : heap) :
  ∃ σ', Use growcap k nilHandler σ = Panics "handler cannot be nil" σ'
    ∧ σ' = σ
    ∧ handlers_of σ' k = handlers_of σ k
    ∧ middleware_of σ' k = middleware_of σ k.
Proof. exists σ. repeat split. Qed.

(** C4. On a stack, [Use handler] panics exactly when [handler] is the nil
    handler; for any other handler it returns, and then the stack's handler
    list is the old one with [handler] at the end and its chain is [build]
    of that whole list. *)
Theorem Use_appends_and_rebuilds (k : nat) (K : Kudret) (h : Handler)
    (σ : heap) :
  wf σ → stacks σ !! k = Some K →
  (panicked (Use growcap k h σ) ↔ h = nilHandler)
  ∧ (h ≠ nilHandler →
     ∃ σ', Use growcap k h σ = Ok tt σ'
       ∧ handlers_of σ' k = Some (elems σ (Kudret_handlers K) ++ [h])
       ∧ middleware_of σ' k
           = Some (build (elems σ (Kudret_handlers K) ++ [h]))).
Proof.
  intros Hwf HK.
  destruct h as [|f]; [split; [split; [reflexivity|intros _; exact I]|]|].
  { intros Hne. now destruct Hne. }
  destruct (append_spec (Kudret_handlers K) [HandlerFunc f] σ (Hwf _ _ HK))
    as (s' & σ1 & Happ & Hst & Hnew & _).
  assert (Hk : k < length (stacks σ1)).
  { rewrite Hst. eapply lookup_lt_Some, HK. }
  assert (Hrun : ∃ σ', Use growcap k (HandlerFunc f) σ = Ok tt σ'
    ∧ handlers_of σ' k = Some (elems σ (Kudret_handlers K) ++ [HandlerFunc f])
    ∧ middleware_of σ' k
        = Some (build (elems σ (Kudret_handlers K) ++ [HandlerFunc f]))).
  { eexists. unfold Use, bind, deref, store, read. rewrite HK, Happ.
    cbn [stacks arrays]. rewrite list_lookup_insert_eq by assumption.
    cbn [Kudret_handlers Kudret_middleware].
    split; [reflexivity|].
    unfold handlers_of, middleware_of. cbn [stacks].
    rewrite list_lookup_insert_eq by (rewrite length_insert; assumption).
    cbn [fmap option_fmap option_map Kudret_handlers Kudret_middleware].
    rewrite !(elems_same_arrays (Heap _ _) σ1) by reflexivity.
    rewrite Hnew. split; reflexivity. }
  split; [|intros _; exact Hrun].
  destruct Hrun as (σ' & -> & _). split; [intros []|discriminate].
Qed.

(** C6. [With] on a stack returns a new stack, at an address that was free,
    whose handler list is the receiver's followed by the additional handlers
    and whose chain is [build] of that list; the receiver is the same struct
    as before, with the same handler list, and a dispatch on it does what it
    did before the call. *)
Theorem With_leaves_receiver (k : nat) (K : Kudret) (handlers : slice)
    (σ : heap) :
  wf σ → stacks σ !! k = Some K →
  ∃ k' σ', With growcap k handlers σ = Ok k' σ'
    ∧ stacks σ !! k' = None
    ∧ handlers_of σ' k'
        = Some (elems σ (Kudret_handlers K) ++ elems σ handlers)
    ∧ middleware_of σ' k'
        = Some (build (elems σ (Kudret_handlers K) ++ elems σ handlers))
    ∧ stacks σ' !! k = Some K
    ∧ handlers_of σ' k = handlers_of σ k
    ∧ (∀ rw r w,
         Kudret_ServeHTTP σ' k rw r w = Kudret_ServeHTTP σ k rw r w).
Proof.
  intros Hwf HK.
  destruct (append_spec (Kudret_handlers K) (elems σ handlers) σ (Hwf _ _ HK))
    as (s' & σ1 & Happ & Hst & Hnew & Hold).
  eexists _, _. unfold With, New, bind, deref, read, alloc.
  rewrite HK, Happ. split; [reflexivity|].
  assert (Hk : k < length (stacks σ)) by (eapply lookup_lt_Some, HK).
  rewrite Hst.
  assert (Hk' : (stacks σ ++ [ {| Kudret_middleware := build (elems σ1 s');
                                  Kudret_handlers := s' |} ]) !! k = Some K).
  { rewrite lookup_app_l by assumption. exact HK. }
  split; [apply lookup_ge_None_2; lia|].
  unfold handlers_of, middleware_of, Kudret_ServeHTTP. cbn [stacks].
  rewrite list_lookup_middle by reflexivity. rewrite Hk', HK.
  cbn [fmap option_fmap option_map Kudret_handlers Kudret_middleware].
  rewrite !(elems_same_arrays (Heap _ _) σ1) by reflexivity.
  rewrite Hnew, Hold. repeat split; reflexivity.
Qed.

(** *** Heaps the operations can reach *)

(** What the language promises of the capacity of a grown slice: it holds
    the elements. *)
Hypothesis growcap_fits : ∀ oldCap newLen, newLen ≤ growcap oldCap newLen.

Lemma wf_slice_mono (σ σ' : heap) s :
  (∀ i, length (array_at σ i) ≤ length (array_at σ' i)) →
  wf_slice σ s → wf_slice σ' s.
Proof using Type.
  intros Hmono [Hlen Hcap]. split; [assumption|].
  etrans; [exact Hcap|apply Hmono].
Qed.

Lemma alloc_array_mono (σ : heap) x st i :
  length (array_at σ i) ≤ length (array_at (Heap (arrays σ ++ [x]) st) i).
Proof using Type.
  destruct (decide (i < length (arrays σ))) as [Hin|Hout].
  - now rewrite array_at_alloc_old.
  - rewrite (array_at_None σ) by lia. simpl. lia.
Qed.

Lemma append_wf (s : slice) (vs : list Handler) (σ σ' : heap) s' :
  wf_slice σ s → append growcap s vs σ = Ok s' σ' →
  wf_slice σ' s'
  ∧ stacks σ' = stacks σ
  ∧ (∀ i, length (array_at σ i) ≤ length (array_at σ' i)).
Proof using growcap_fits.
  intros [Hlen Hcap]. unfold append.
  destruct (decide (slice_len s + length vs ≤ slice_cap s)) as [Hfit|Hgrow];
    intros [= <- <-].
  - set (x := take _ _ ++ vs ++ drop _ _).
    assert (Hx : length x = length (array_at σ (slice_array s))).
    { subst x. rewrite !length_app, length_take_le, length_drop by lia. lia. }
    assert (Hall : ∀ i, length (array_at σ i)
                     ≤ length (array_at (Heap (<[slice_array s := x]> (arrays σ))
                                              (stacks σ)) i)).
    { intros i. unfold array_at at 2. cbn [arrays].
      destruct (decide (slice_array s = i)) as [<-|Hne].
      - destruct (decide (slice_array s < length (arrays σ))) as [Hin|Hout].
        + rewrite list_lookup_insert_eq by assumption. simpl. lia.
        + rewrite list_insert_ge by lia. reflexivity.
      - rewrite list_lookup_insert_ne by assumption. reflexivity. }
    split; [|split; [reflexivity|exact Hall]].
    split; cbn [slice_len slice_cap slice_array]; [assumption|].
    etrans; [exact Hcap|apply Hall].
  - split; [|split; [reflexivity|intros i; apply alloc_array_mono]].
    pose proof (growcap_fits (slice_cap s) (slice_len s + length vs)) as Hg.
    split; cbn [slice_len slice_cap slice_array]; [assumption|].
    rewrite array_at_alloc, !length_app, length_replicate.
    assert (length (elems σ s) = slice_len s).
    { unfold elems. apply length_take_le. lia. }
    lia.
Qed.

Lemma pass_wf (a : arguments) (σ σ' : heap) s :
  wf σ → pass a σ = Ok s σ' → wf σ' ∧ wf_slice σ' s.
Proof using Type.
  intros Hwf. destruct a as [vs|j]; simpl.
  - unfold variadic. destruct vs as [|v vs]; intros [= <- <-].
    + split; [assumption|]. split; simpl; lia.
    + split.
      * intros k K HK. eapply wf_slice_mono; [|apply (Hwf _ _ HK)].
        intros i. apply alloc_array_mono.
      * split; cbn [slice_len slice_cap slice_array]; [lia|].
        rewrite array_at_alloc. reflexivity.
  - unfold Handlers, bind, deref, ret.
    destruct (stacks σ !! j) as [K|] eqn:HK; [|discriminate].
    intros [= <- <-]. split; [assumption|]. apply (Hwf _ _ HK).
Qed.

Lemma New_wf (s : slice) (σ σ' : heap) k :
  wf σ → wf_slice σ s → New s σ = Ok k σ' → wf σ'.
Proof using Type.
  intros Hwf Hs [= <- <-]. intros j K.
  cbn [stacks]. rewrite lookup_app_Some. intros [HK|[_ HK]].
  - apply (Hwf _ _ HK).
  - apply list_lookup_singleton_Some in HK as [_ <-]. exact Hs.
Qed.

Lemma With_wf k (s : slice) (σ σ' : heap) k' :
  wf σ → With growcap k s σ = Ok k' σ' → wf σ'.
Proof using growcap_fits.
  intros Hwf. unfold With, bind, deref, read.
  destruct (stacks σ !! k) as [K|] eqn:HK; [|discriminate].
  destruct (append growcap (Kudret_handlers K) (elems σ s) σ)
    as [s1 σ1|] eqn:Happ; [|discriminate].
  destruct (append_wf _ _ _ _ _ (Hwf _ _ HK) Happ) as (Hs1 & Hst & Hmono).
  apply New_wf; [|assumption].
  intros j Kj Hj. rewrite Hst in Hj.
  eapply wf_slice_mono; [exact Hmono|apply (Hwf _ _ Hj)].
Qed.

Lemma Use_wf k (h : Handler) (σ σ' : heap) :
  wf σ → Use growcap k h σ = Ok tt σ' → wf σ'.
Proof using growcap_fits.
  intros Hwf. destruct h as [|f]; [discriminate|].
  unfold Use, bind, deref, store, read.
  destruct (stacks σ !! k) as [K|] eqn:HK; [|discriminate].
  destruct (append growcap (Kudret_handlers K) [HandlerFunc f] σ)
    as [s1 σ1|] eqn:Happ; [|discriminate].
  destruct (append_wf _ _ _ _ _ (Hwf _ _ HK) Happ) as (Hs1 & Hst & Hmono).
  assert (Hk : k < length (stacks σ1)).
  { rewrite Hst. eapply lookup_lt_Some, HK. }
  cbn [stacks arrays]. rewrite list_lookup_insert_eq by assumption.
  intros [= <-]. intros j Kj. cbn [stacks].
  rewrite list_insert_insert_eq.
  destruct (decide (k = j)) as [<-|Hne].
  - rewrite list_lookup_insert_eq by assumption. intros [= <-].
    eapply wf_slice_mono; [|exact Hs1]. intros i. reflexivity.
  - rewrite list_lookup_insert_ne by assumption. rewrite Hst. intros Hj.
    eapply wf_slice_mono; [exact Hmono|apply (Hwf _ _ Hj)].
Qed.

Lemma run_call_reachable (c : call) (σ σ' : heap) :
  reachable growcap σ → run_call growcap c σ = Ok tt σ' → reachable growcap σ'.
Proof using Type.
  intros Hσ. destruct c as [a|k a|k h]; cbn [run_call].
  - unfold bind at 1 2. intros Hrun.
    destruct (pass a σ) as [s σ1|] eqn:Hp; [|discriminate].
    destruct (New s σ1) as [k σ2|] eqn:HN; [|discriminate].
    injection Hrun as <-. apply (reach_New growcap a σ k σ2 Hσ).
    unfold bind. now rewrite Hp.
  - unfold bind at 1 2. intros Hrun.
    destruct (pass a σ) as [s σ1|] eqn:Hp; [|discriminate].
    destruct (With growcap k s σ1) as [k' σ2|] eqn:HW; [|discriminate].
    injection Hrun as <-. apply (reach_With growcap k a σ k' σ2 Hσ).
    unfold bind. now rewrite Hp.
  - apply reach_Use, Hσ.
Qed.

Lemma run_calls_reachable (cs : list call) (σ σ' : heap) :
  reachable growcap σ → run_calls growcap cs σ = Ok tt σ' → reachable growcap σ'.
Proof using Type.
  revert σ. induction cs as [|c cs IH]; intros σ Hσ; cbn [run_calls].
  - intros [= <-]. exact Hσ.
  - unfold bind. destruct (run_call growcap c σ) as [[] σ1|] eqn:Hc; [|discriminate].
    apply IH. eapply run_call_reachable; eassumption.
Qed.

Lemma in_lockstep_of (σ : heap) :
  in_lockstep σ → ∀ k, middleware_of σ k = build <$> handlers_of σ k.
Proof using Type.
  intros H k. unfold middleware_of, handlers_of.
  destruct (stacks σ !! k) as [K|] eqn:HK; [|reflexivity].
  simpl. now rewrite (H _ _ HK).
Qed.

(** Every heap the operations reach is well formed, so the theorems about
    [Use] and [With] apply after any history of calls. *)
Lemma reachable_wf (σ : heap) : reachable growcap σ → wf σ.
Proof using growcap_fits.
  induction 1 as [|a σ k σ' _ IH Hrun|k a σ k' σ' _ IH Hrun|k h σ σ' _ IH Hrun].
  - intros k K HK. discriminate.
  - unfold bind in Hrun. destruct (pass a σ) as [s σ1|] eqn:Hp; [|discriminate].
    destruct (pass_wf _ _ _ _ IH Hp). eapply New_wf; eassumption.
  - unfold bind in Hrun. destruct (pass a σ) as [s σ1|] eqn:Hp; [|discriminate].
    destruct (pass_wf _ _ _ _ IH Hp). eapply With_wf; eassumption.
  - eapply Use_wf; eassumption.
Qed.

End StackProperties.

(** ** More on the stack operations *)

Section StackMore.

Context {ResponseWriter Request World : Type}.
Local Abbreviation Handler := (Handler ResponseWriter Request World).
Local Abbreviation http_Handler := (http_Handler ResponseWriter Request World).
Local Abbreviation HandlerFunc_body :=
  (HandlerFunc_body ResponseWriter Request World).
Local Abbreviation heap := (heap ResponseWriter Request World).
Local Abbreviation Kudret := (Kudret ResponseWriter Request World).
Local Abbreviation call := (call (ResponseWriter := ResponseWriter)
                                 (Request := Request) (World := World)).

Variable growcap : nat → nat → nat.

Lemma length_elems (σ : heap) (s : slice) :
  wf_slice σ s → length (elems σ s) = slice_len s.
Proof. intros [Hlen Hcap]. unfold elems. apply length_take_le. lia. Qed.

Lemma append_stacks (s s' : slice) (vs : list Handler) (σ σ' : heap) :
  append growcap s vs σ = Ok s' σ' → stacks σ' = stacks σ.
Proof. unfold append. case_decide; intros [= <- <-]; reflexivity. Qed.

(** What [Use] leaves when it returns. *)
Lemma Use_returns (k : nat) (K : Kudret) (f : HandlerFunc_body) (σ : heap) :
  wf_slice σ (Kudret_handlers K) → stacks σ !! k = Some K →
  ∃ s' σ1,
    append growcap (Kudret_handlers K) [HandlerFunc f] σ = Ok s' σ1
    ∧ elems σ1 s' = elems σ (Kudret_handlers K) ++ [HandlerFunc f]
    ∧ Use growcap k (HandlerFunc f) σ
      = Ok tt (Heap (arrays σ1)
                 (<[k := {| Kudret_middleware :=
                              build (elems σ (Kudret_handlers K)
                                     ++ [HandlerFunc f]);
                            Kudret_handlers := s' |}]> (stacks σ))).
Proof.
  intros Hwf HK.
  destruct (append_spec growcap (Kudret_handlers K) [HandlerFunc f] σ Hwf)
    as (s' & σ1 & Happ & Hst & Hnew & _).
  exists s', σ1. split; [exact Happ|]. split; [exact Hnew|].
  assert (Hk : k < length (stacks σ)) by (eapply lookup_lt_Some, HK).
  unfold Use, bind, deref, store, read. rewrite HK, Happ.
  cbn [stacks arrays]. rewrite Hst.
  rewrite list_lookup_insert_eq by assumption.
  cbn [Kudret_handlers Kudret_middleware stacks arrays].
  rewrite list_insert_insert_eq.
  rewrite (elems_same_arrays (Heap _ _) σ1) by reflexivity.
  now rewrite Hnew.
Qed.

Lemma Use_returns_lists (k : nat) (K : Kudret) (f : HandlerFunc_body)
    (σ : heap) :
  wf_slice σ (Kudret_handlers K) → stacks σ !! k = Some K →
  ∃ σ', Use growcap k (HandlerFunc f) σ = Ok tt σ'
    ∧ handlers_of σ' k
      = Some (elems σ (Kudret_handlers K) ++ [HandlerFunc f])
    ∧ middleware_of σ' k
      = Some (build (elems σ (Kudret_handlers K) ++ [HandlerFunc f])).
Proof.
  intros Hwf HK.
  destruct (Use_returns k K f σ Hwf HK) as (s' & σ1 & _ & Hnew & ->).
  assert (Hk : k < length (stacks σ)) by (eapply lookup_lt_Some, HK).
  eexists. split; [reflexivity|].
  unfold handlers_of, middleware_of. cbn [stacks].
  rewrite list_lookup_insert_eq by assumption.
  cbn [fmap option_fmap option_map Kudret_handlers Kudret_middleware].
  rewrite (elems_same_arrays (Heap _ _) σ1) by reflexivity.
  now rewrite Hnew.
Qed.

(** X5. The three adapters of [Use] never run into its nil check: on a
    stack, [UseFunc], [UseHandler] and [UseHandlerFunc] return for every
    argument, with the function as a handler, or the plain handler wrapped
    by [Wrap] or [WrapFunc], at the end of the handler list, and the chain
    rebuilt. *)
Theorem Use_adapters_return (k : nat) (K : Kudret) (f : HandlerFunc_body)
    (h : http_Handler) (σ : heap) :
  wf σ → stacks σ !! k = Some K →
  (∃ σ', UseFunc growcap k f σ = Ok tt σ'
     ∧ handlers_of σ' k = Some (elems σ (Kudret_handlers K) ++ [HandlerFunc f])
     ∧ middleware_of σ' k
       = Some (build (elems σ (Kudret_handlers K) ++ [HandlerFunc f])))
  ∧ (∃ σ', UseHandler growcap k h σ = Ok tt σ'
     ∧ handlers_of σ' k = Some (elems σ (Kudret_handlers K) ++ [Wrap h])
     ∧ middleware_of σ' k
       = Some (build (elems σ (Kudret_handlers K) ++ [Wrap h])))
  ∧ (∃ σ', UseHandlerFunc growcap k h σ = Ok tt σ'
     ∧ handlers_of σ' k = Some (elems σ (Kudret_handlers K) ++ [WrapFunc h])
     ∧ middleware_of σ' k
       = Some (build (elems σ (Kudret_handlers K) ++ [WrapFunc h]))).
Proof.
  intros Hwf HK. pose proof (Hwf _ _ HK) as Hs.
  split; [|split]; apply (Use_returns_lists k K _ σ Hs HK).
Qed.

(** X4. [New] and the nil handler: [New] has no check like that of [Use].
    Called with a nil handler in front it returns a stack that lists it, and
    every dispatch on that stack panics at the head of the chain, before any
    handler has run. *)
Theorem New_accepts_nil (vs : list Handler) (σ : heap) :
  ∃ σ', bind (variadic (nilHandler :: vs)) New σ = Ok (length (stacks σ)) σ'
    ∧ handlers_of σ' (length (stacks σ)) = Some (nilHandler :: vs)
    ∧ ∀ rw r (w : World),
        Kudret_ServeHTTP σ' (length (stacks σ)) rw r w
        = Result Panicked w [Invoke 0].
Proof.
  eexists. unfold bind, variadic, New, read, alloc, bind. cbn [stacks arrays].
  split; [reflexivity|].
  unfold handlers_of, Kudret_ServeHTTP. cbn [stacks].
  rewrite list_lookup_middle by reflexivity.
  cbn [fmap option_fmap option_map Kudret_handlers Kudret_middleware].
  assert (He : ∀ st, elems (Heap (arrays σ ++ [nilHandler :: vs]) st)
                 (Slice (length (arrays σ)) (length (nilHandler :: vs))
                        (length (nilHandler :: vs)))
               = nilHandler :: vs).
  { intros st. unfold elems. cbn [slice_array slice_len].
    rewrite array_at_alloc. now apply take_ge. }
  rewrite !He. split; [reflexivity|].
  intros rw r w. rewrite build_cons. reflexivity.
Qed.

(** X10. [New] keeps the slice it is given.  With the slice another stack's
    [Handlers()] returns, spread as the arguments, the new stack holds that
    very slice header: no array is allocated, and [Handlers()] of the new
    stack returns the slice of the old one. *)
Theorem New_of_Handlers_shares (j : nat) (K : Kudret) (σ : heap) :
  stacks σ !! j = Some K →
  ∃ σ', bind (Handlers j) New σ = Ok (length (stacks σ)) σ'
    ∧ arrays σ' = arrays σ
    ∧ Handlers (length (stacks σ)) σ' = Ok (Kudret_handlers K) σ'
    ∧ Handlers j σ' = Ok (Kudret_handlers K) σ'
    ∧ middleware_of σ' (length (stacks σ))
      = Some (build (elems σ (Kudret_handlers K))).
Proof.
  intros HK. eexists.
  unfold Handlers, New, bind, deref, ret, read, alloc. rewrite HK.
  split; [reflexivity|]. split; [reflexivity|].
  unfold middleware_of. cbn [stacks].
  rewrite list_lookup_middle by reflexivity.
  rewrite lookup_app_l by (eapply lookup_lt_Some, HK). rewrite HK.
  repeat split.
Qed.

(** What [With] leaves when it returns. *)
Lemma With_returns (k : nat) (K : Kudret) (handlers : slice) (σ : heap) :
  wf_slice σ (Kudret_handlers K) → stacks σ !! k = Some K →
  ∃ s' σ1,
    append growcap (Kudret_handlers K) (elems σ handlers) σ = Ok s' σ1
    ∧ elems σ1 s' = elems σ (Kudret_handlers K) ++ elems σ handlers
    ∧ With growcap k handlers σ
      = Ok (length (stacks σ))
           (Heap (arrays σ1)
              (stacks σ ++
                 [ {| Kudret_middleware :=
                        build (elems σ (Kudret_handlers K)
                               ++ elems σ handlers);
                      Kudret_handlers := s' |} ])).
Proof.
  intros Hwf HK.
  destruct (append_spec growcap (Kudret_handlers K) (elems σ handlers) σ Hwf)
    as (s' & σ1 & Happ & Hst & Hnew & _).
  exists s', σ1. split; [exact Happ|]. split; [exact Hnew|].
  unfold With, New, bind, deref, read, alloc. rewrite HK, Happ, Hst, Hnew.
  reflexivity.
Qed.

Lemma pass_stacks (a : arguments) (σ σ' : heap) s :
  pass a σ = Ok s σ' → stacks σ' = stacks σ.
Proof.
  destruct a as [[|v vs]|j]; simpl.
  - intros [= <- <-]. reflexivity.
  - intros [= <- <-]. reflexivity.
  - unfold Handlers, bind, deref, ret.
    destruct (stacks σ !! j); [|discriminate]. intros [= <- <-]. reflexivity.
Qed.

(** X8. A call changes the struct of no stack but the receiver of a [Use]:
    [New] and [With] leave every stack there is with the chain and the slice
    header it had, and [Use] does so for every stack but its receiver.  A
    dispatch on such a stack does after the call what it did before. *)
Theorem calls_keep_other_stacks (c : call) (σ σ' : heap) (j : nat)
    (K : Kudret) :
  run_call growcap c σ = Ok tt σ' →
  stacks σ !! j = Some K →
  (∀ h, c ≠ CallUse j h) →
  stacks σ' !! j = Some K
  ∧ ∀ rw r w, Kudret_ServeHTTP σ' j rw r w = Kudret_ServeHTTP σ j rw r w.
Proof.
  intros Hrun HK Hc.
  assert (Hj : j < length (stacks σ)) by (eapply lookup_lt_Some, HK).
  assert (Hkeep : stacks σ' !! j = Some K).
  { destruct c as [a|k a|k h]; cbn [run_call] in Hrun.
    - unfold bind at 1 2 in Hrun.
      destruct (pass a σ) as [s σ1|] eqn:Hp; [|discriminate].
      apply pass_stacks in Hp. unfold New, bind, read, alloc, ret in Hrun.
      injection Hrun as <-. cbn [stacks]. rewrite Hp.
      now rewrite lookup_app_l.
    - unfold bind at 1 2 in Hrun.
      destruct (pass a σ) as [s σ1|] eqn:Hp; [|discriminate].
      apply pass_stacks in Hp.
      unfold With, New, bind, deref, read, alloc, ret in Hrun.
      destruct (stacks σ1 !! k) as [Kk|]; [|discriminate].
      destruct (append growcap (Kudret_handlers Kk) (elems σ1 s) σ1)
        as [s2 σ2|] eqn:Happ; [|discriminate].
      apply append_stacks in Happ. injection Hrun as <-.
      cbn [stacks]. rewrite Happ, Hp. now rewrite lookup_app_l.
    - assert (Hne : k ≠ j) by (intros ->; now apply (Hc h)).
      destruct h as [|f]; [discriminate|].
      unfold Use, bind, deref, store, read in Hrun.
      destruct (stacks σ !! k) as [Kk|] eqn:HKk; [|discriminate].
      destruct (append growcap (Kudret_handlers Kk) [HandlerFunc f] σ)
        as [s2 σ2|] eqn:Happ; [|discriminate].
      apply append_stacks in Happ. cbn [stacks arrays] in Hrun.
      destruct (<[k:=_]> (stacks σ2) !! k); [|discriminate].
      injection Hrun as <-. cbn [stacks].
      rewrite !list_lookup_insert_ne by assumption. now rewrite Happ. }
  split; [exact Hkeep|].
  intros rw r w. unfold Kudret_ServeHTTP. now rewrite Hkeep, HK.
Qed.

Hypothesis growcap_fits : ∀ oldCap newLen, newLen ≤ growcap oldCap newLen.

(** X6. Handlers are served in the order they are added: [Use] called with
    the non-nil handlers of a list, one after the other, returns each time
    and leaves the stack with its old handlers followed by the whole list;
    when the list is not empty the chain is [build] of all of them, so a
    dispatch on the stack is the dispatch through that list. *)
Theorem Use_in_order (k : nat) (hs : list Handler) :
  ∀ (K : Kudret) (σ : heap),
  wf σ → stacks σ !! k = Some K →
  Forall (λ h, h ≠ nilHandler) hs →
  ∃ σ', run_calls growcap (map (CallUse k) hs) σ = Ok tt σ'
    ∧ wf σ'
    ∧ handlers_of σ' k = Some (elems σ (Kudret_handlers K) ++ hs)
    ∧ (hs ≠ [] →
       middleware_of σ' k = Some (build (elems σ (Kudret_handlers K) ++ hs))
       ∧ ∀ rw r w, Kudret_ServeHTTP σ' k rw r w
                   = dispatch (elems σ (Kudret_handlers K) ++ hs) rw r w).
Proof using growcap_fits.
  induction hs as [|h hs IH]; intros K σ Hwf HK Hnn.
  - exists σ. split; [reflexivity|]. split; [assumption|].
    split; [|intros []; reflexivity].
    unfold handlers_of. rewrite HK. simpl. now rewrite app_nil_r.
  - apply Forall_cons in Hnn as [Hh Hnn].
    destruct h as [|f]; [now destruct Hh|].
    destruct (Use_returns_lists k K f σ (Hwf _ _ HK) HK)
      as (σ1 & Hrun & Hhs & Hmw).
    pose proof (Use_wf growcap growcap_fits _ _ _ _ Hwf Hrun) as Hwf1.
    unfold handlers_of in Hhs. unfold middleware_of in Hmw.
    destruct (stacks σ1 !! k) as [K1|] eqn:HK1; [|discriminate].
    injection Hhs as Hhs. injection Hmw as Hmw.
    destruct (IH K1 σ1 Hwf1 HK1 Hnn) as (σ' & Hrest & Hwf' & Hhs' & Hmw').
    exists σ'. cbn [map run_calls run_call]. unfold bind at 1. rewrite Hrun.
    split; [exact Hrest|]. split; [exact Hwf'|].
    rewrite Hhs, <- app_assoc in Hhs'. split; [exact Hhs'|]. intros _.
    destruct hs as [|h' hs].
    + cbn [map run_calls] in Hrest. unfold ret in Hrest.
      injection Hrest as <-. unfold middleware_of, Kudret_ServeHTTP.
      rewrite HK1. cbn [fmap option_fmap option_map]. rewrite Hmw.
      split; reflexivity.
    + destruct Hmw' as [Hm Hd]; [discriminate|].
      rewrite Hhs, <- app_assoc in Hm.
      split; [exact Hm|]. intros rw r w. rewrite Hd, Hhs, <- app_assoc.
      reflexivity.
Qed.

(** X7. Every heap that calls of [New], [With] and [Use] make from the empty
    one keeps each stack's slice within its backing array, and each stack's
    chain is a built chain with one node per handler of the stack (and the
    sentinel and the zero node behind): also where the chain is out of step
    with the handler list, it has the length of that list. *)
Theorem reachable_chains_fit (σ : heap) :
  reachable growcap σ →
  wf σ
  ∧ chains_fit σ
  ∧ ∀ k K, stacks σ !! k = Some K →
      nodes (Kudret_middleware K) = slice_len (Kudret_handlers K) + 2.
Proof using growcap_fits.
  intros Hreach.
  assert (Hfit : chains_fit σ).
  { induction Hreach as [|a σ k σ' Hσ IH Hrun|k a σ k' σ' Hσ IH Hrun
                         |k h σ σ' Hσ IH Hrun].
    - intros k K HK. discriminate.
    - pose proof (reachable_wf growcap growcap_fits _ Hσ) as Hwf.
      unfold bind in Hrun.
      destruct (pass a σ) as [s σ1|] eqn:Hp; [|discriminate].
      destruct (pass_wf _ _ _ _ Hwf Hp) as [_ Hs].
      apply pass_stacks in Hp. injection Hrun as _ <-.
      intros j Kj. cbn [stacks]. rewrite Hp, lookup_app_Some.
      intros [Hj|[_ Hj]]; [apply (IH _ _ Hj)|].
      apply list_lookup_singleton_Some in Hj as [_ <-].
      eexists. split; [reflexivity|]. now apply length_elems.
    - pose proof (reachable_wf growcap growcap_fits _ Hσ) as Hwf.
      unfold bind in Hrun.
      destruct (pass a σ) as [s σ1|] eqn:Hp; [|discriminate].
      destruct (pass_wf _ _ _ _ Hwf Hp) as [Hwf1 _].
      apply pass_stacks in Hp.
      unfold With, bind, deref, read in Hrun.
      destruct (stacks σ1 !! k) as [Kk|] eqn:HKk; [|discriminate].
      destruct (append growcap (Kudret_handlers Kk) (elems σ1 s) σ1)
        as [s2 σ2|] eqn:Happ; [|discriminate].
      destruct (append_wf growcap growcap_fits _ _ _ _ _ (Hwf1 _ _ HKk) Happ)
        as (Hs2 & Hst & _).
      injection Hrun as _ <-.
      intros j Kj. cbn [stacks]. rewrite Hst, Hp, lookup_app_Some.
      intros [Hj|[_ Hj]]; [apply (IH _ _ Hj)|].
      apply list_lookup_singleton_Some in Hj as [_ <-].
      eexists. split; [reflexivity|]. now apply length_elems.
    - pose proof (reachable_wf growcap growcap_fits _ Hσ) as Hwf.
      destruct h as [|f]; [discriminate|].
      unfold Use, bind, deref in Hrun.
      destruct (stacks σ !! k) as [Kk|] eqn:HKk; [|discriminate].
      destruct (Use_returns k Kk f σ (Hwf _ _ HKk) HKk)
        as (s' & σ1 & Happ & Hnew & Huse).
      unfold Use, bind, deref in Huse. rewrite HKk in Huse.
      rewrite Huse in Hrun. injection Hrun as <-.
      destruct (append_wf growcap growcap_fits _ _ _ _ _ (Hwf _ _ HKk) Happ)
        as (Hs' & _ & _).
      intros j Kj. cbn [stacks].
      destruct (decide (k = j)) as [<-|Hne].
      + rewrite list_lookup_insert_eq by (eapply lookup_lt_Some, HKk).
        intros [= <-]. eexists. split; [reflexivity|].
        cbn [Kudret_handlers]. rewrite <- Hnew. now apply length_elems.
      + rewrite list_lookup_insert_ne by assumption. apply IH. }
  split; [apply (reachable_wf growcap growcap_fits _ Hreach)|].
  split; [exact Hfit|].
  intros k K HK. destruct (Hfit _ _ HK) as (hs & -> & <-).
  apply nodes_build.
Qed.

(** X13. Deriving twice: [k.With(a...).With(b...)] is a stack with the
    handlers of [k], then [a], then [b] (as [b] reads when the second call
    is made), and its chain is [build] of all of them. *)
Theorem With_twice (k : nat) (K : Kudret) (a b : slice) (σ : heap) :
  wf σ → stacks σ !! k = Some K →
  ∃ σ1 σ2,
    With growcap k a σ = Ok (length (stacks σ)) σ1
    ∧ With growcap (length (stacks σ)) b σ1 = Ok (S (length (stacks σ))) σ2
    ∧ handlers_of σ2 (S (length (stacks σ)))
      = Some (elems σ (Kudret_handlers K) ++ elems σ a ++ elems σ1 b)
    ∧ middleware_of σ2 (S (length (stacks σ)))
      = Some (build (elems σ (Kudret_handlers K) ++ elems σ a ++ elems σ1 b)).
Proof using growcap_fits.
  intros Hwf HK.
  destruct (With_returns k K a σ (Hwf _ _ HK) HK)
    as (s1 & σa & Happ1 & Hnew1 & Hrun1).
  pose proof (With_wf growcap growcap_fits _ _ _ _ _ Hwf Hrun1) as Hwf1.
  match type of Hrun1 with _ = Ok _ ?h => set (σ1 := h) in * end.
  assert (HK1 : stacks σ1 !! length (stacks σ)
                = Some {| Kudret_middleware :=
                            build (elems σ (Kudret_handlers K) ++ elems σ a);
                          Kudret_handlers := s1 |}).
  { subst σ1. cbn [stacks]. now rewrite list_lookup_middle. }
  destruct (With_returns _ _ b σ1 (Hwf1 _ _ HK1) HK1)
    as (s2 & σb & Happ2 & Hnew2 & Hrun2).
  assert (Hlen : length (stacks σ1) = S (length (stacks σ))).
  { subst σ1. cbn [stacks]. rewrite length_app. simpl. lia. }
  rewrite Hlen in Hrun2.
  assert (He : elems σ1 s1 = elems σ (Kudret_handlers K) ++ elems σ a).
  { subst σ1. rewrite (elems_same_arrays (Heap _ _) σa) by reflexivity.
    exact Hnew1. }
  cbn [Kudret_handlers] in Hrun2, Hnew2. rewrite He in Hrun2, Hnew2.
  rewrite <- !app_assoc in Hrun2, Hnew2.
  match type of Hrun2 with _ = Ok _ ?h => exists σ1, h end.
  split; [exact Hrun1|]. split; [exact Hrun2|].
  unfold handlers_of, middleware_of. cbn [stacks].
  rewrite list_lookup_middle by (symmetry; exact Hlen).
  cbn [fmap option_fmap option_map Kudret_handlers Kudret_middleware].
  rewrite (elems_same_arrays (Heap _ _) σb) by reflexivity.
  rewrite Hnew2. split; reflexivity.
Qed.

(** *** Stacks that share no array *)

Lemma wf_array_old (σ : heap) (s : slice) :
  wf_slice σ s → slice_cap s = 0 ∨ slice_array s < length (arrays σ).
Proof using Type.
  intros [Hl Hc].
  destruct (decide (slice_array s < length (arrays σ))); [now right|left].
  rewrite array_at_None in Hc by lia. simpl in Hc. lia.
Qed.

Lemma elems_empty (σ : heap) (s : slice) :
  slice_len s ≤ slice_cap s → slice_cap s = 0 → elems σ s = [].
Proof using Type.
  intros Hl Hc. unfold elems. replace (slice_len s) with 0 by lia.
  reflexivity.
Qed.

Lemma elems_alloc (σ : heap) (s : slice) x st :
  wf_slice σ s → elems (Heap (arrays σ ++ [x]) st) s = elems σ s.
Proof using Type.
  intros Hwf. destruct (wf_array_old σ s Hwf) as [Hc|Hin].
  - destruct Hwf as [Hl _]. now rewrite !elems_empty.
  - unfold elems. now rewrite array_at_alloc_old.
Qed.

Lemma elems_insert_other (σ : heap) (s : slice) i x st :
  slice_len s ≤ slice_cap s →
  slice_array s ≠ i ∨ slice_cap s = 0 →
  elems (Heap (<[i := x]> (arrays σ)) st) s = elems σ s.
Proof using Type.
  intros Hl [Hne|Hc].
  - unfold elems, array_at. cbn [arrays].
    now rewrite list_lookup_insert_ne by congruence.
  - now rewrite !elems_empty.
Qed.

(** A stack added behind the others. *)
Lemma push_stack_keeps (σ σ' : heap) (K0 : Kudret) :
  separate σ → in_lockstep σ →
  stacks σ' = stacks σ ++ [K0] →
  Kudret_middleware K0 = build (elems σ' (Kudret_handlers K0)) →
  (∀ j Kj, stacks σ !! j = Some Kj →
     elems σ' (Kudret_handlers Kj) = elems σ (Kudret_handlers Kj)
     ∧ (slice_array (Kudret_handlers K0) ≠ slice_array (Kudret_handlers Kj)
        ∨ slice_cap (Kudret_handlers K0) = 0
        ∨ slice_cap (Kudret_handlers Kj) = 0)) →
  separate σ' ∧ in_lockstep σ'.
Proof using Type.
  intros Hsep Hlock Hst HK0 Hold.
  assert (Hcase : ∀ j Kj, stacks σ' !! j = Some Kj →
            (j < length (stacks σ) ∧ stacks σ !! j = Some Kj)
            ∨ (j = length (stacks σ) ∧ Kj = K0)).
  { intros j Kj. rewrite Hst, lookup_app_Some.
    intros [Hj|[Hge Hj]].
    - left. split; [eapply lookup_lt_Some, Hj|exact Hj].
    - right. apply list_lookup_singleton_Some in Hj as [Hz <-].
      split; [lia|reflexivity]. }
  split.
  - intros j1 j2 K1 K2 Hne H1 H2.
    destruct (Hcase _ _ H1) as [[_ H1']|[-> ->]];
      destruct (Hcase _ _ H2) as [[_ H2']|[-> ->]].
    + apply (Hsep j1 j2); assumption.
    + destruct (Hold _ _ H1') as [_ [Ha|[Hc|Hc]]]; auto.
    + destruct (Hold _ _ H2') as [_ [Ha|[Hc|Hc]]]; auto.
    + now destruct Hne.
  - intros j Kj Hj. destruct (Hcase _ _ Hj) as [[_ Hj']|[-> ->]].
    + destruct (Hold _ _ Hj') as [-> _]. apply (Hlock _ _ Hj').
    + exact HK0.
Qed.

(** A stack replaced where it stands. *)
Lemma set_stack_keeps (σ σ' : heap) (k : nat) (K K' : Kudret) :
  separate σ → in_lockstep σ →
  stacks σ !! k = Some K →
  stacks σ' = <[k := K']> (stacks σ) →
  Kudret_middleware K' = build (elems σ' (Kudret_handlers K')) →
  (∀ j Kj, j ≠ k → stacks σ !! j = Some Kj →
     elems σ' (Kudret_handlers Kj) = elems σ (Kudret_handlers Kj)
     ∧ (slice_array (Kudret_handlers K') ≠ slice_array (Kudret_handlers Kj)
        ∨ slice_cap (Kudret_handlers K') = 0
        ∨ slice_cap (Kudret_handlers Kj) = 0)) →
  separate σ' ∧ in_lockstep σ'.
Proof using Type.
  intros Hsep Hlock HK Hst HK' Hold.
  assert (Hk : k < length (stacks σ)) by (eapply lookup_lt_Some, HK).
  assert (Hcase : ∀ j Kj, stacks σ' !! j = Some Kj →
            (j ≠ k ∧ stacks σ !! j = Some Kj) ∨ (j = k ∧ Kj = K')).
  { intros j Kj. rewrite Hst. destruct (decide (k = j)) as [<-|Hne].
    - rewrite list_lookup_insert_eq by assumption. intros [= <-]. now right.
    - rewrite list_lookup_insert_ne by assumption. intros Hj. left.
      split; [congruence|exact Hj]. }
  split.
  - intros j1 j2 K1 K2 Hne H1 H2.
    destruct (Hcase _ _ H1) as [[N1 H1']|[-> ->]];
      destruct (Hcase _ _ H2) as [[N2 H2']|[-> ->]].
    + apply (Hsep j1 j2); assumption.
    + destruct (Hold _ _ N1 H1') as [_ [Ha|[Hc|Hc]]]; auto.
    + destruct (Hold _ _ N2 H2') as [_ [Ha|[Hc|Hc]]]; auto.
    + now destruct Hne.
  - intros j Kj Hj. destruct (Hcase _ _ Hj) as [[Nj Hj']|[-> ->]].
    + destruct (Hold _ _ Nj Hj') as [-> _]. apply (Hlock _ _ Hj').
    + exact HK'.
Qed.

Lemma own_call_keeps (c : call) (σ σ' : heap) :
  own_values c → wf σ → separate σ → in_lockstep σ →
  run_call growcap c σ = Ok tt σ' →
  separate σ' ∧ in_lockstep σ'.
Proof using growcap_fits.
  intros Hown Hwf Hsep Hlock Hrun.
  destruct c as [[vs|j]|k a|k h]; try now destruct Hown.
  - cbn [run_call pass] in Hrun.
    unfold bind, variadic, New, read, alloc, ret, bind in Hrun.
    destruct vs as [|v vs]; injection Hrun as <-.
    + eapply push_stack_keeps; [exact Hsep|exact Hlock|reflexivity
                               |reflexivity|].
      intros j Kj Hj. split; [reflexivity|]. right. now left.
    + eapply push_stack_keeps; [exact Hsep|exact Hlock|reflexivity
                               |reflexivity|].
      intros j Kj Hj. cbn [Kudret_handlers slice_array slice_cap].
      split; [apply elems_alloc, (Hwf _ _ Hj)|].
      destruct (wf_array_old _ _ (Hwf _ _ Hj)) as [Hc|Hin]; [auto|].
      left. lia.
  - cbn [run_call] in Hrun. destruct h as [|f]; [discriminate|].
    destruct (stacks σ !! k) as [K|] eqn:HK;
      [|unfold Use, bind, deref in Hrun; now rewrite HK in Hrun].
    pose proof (Hwf _ _ HK) as HwfK.
    destruct (Use_returns k K f σ HwfK HK) as (s' & σ1 & Happ & Hnew & Huse).
    rewrite Huse in Hrun. injection Hrun as <-.
    eapply (set_stack_keeps σ _ k K); [exact Hsep|exact Hlock|exact HK
                                     |reflexivity| |].
    { cbn [Kudret_middleware Kudret_handlers].
      rewrite (elems_same_arrays (Heap _ _) σ1) by reflexivity.
      now rewrite Hnew. }
    intros j Kj Hne Hj. cbn [Kudret_handlers].
    rewrite (elems_same_arrays (Heap _ _) σ1) by reflexivity.
    pose proof (Hwf _ _ Hj) as HwfJ.
    unfold append in Happ. cbn [length] in Happ.
    destruct (decide (slice_len (Kudret_handlers K) + 1
                      ≤ slice_cap (Kudret_handlers K))) as [Hfit|Hgrow];
      injection Happ as <- <-; cbn [slice_array slice_cap].
    + destruct (Hsep j k Kj K Hne Hj HK) as [Ha|[Hc|Hc]]; [| |lia].
      * split; [|left; congruence].
        apply elems_insert_other; [apply HwfJ|now left].
      * split; [|right; now right].
        apply elems_insert_other; [apply HwfJ|now right].
    + split; [apply elems_alloc, HwfJ|].
      destruct (wf_array_old _ _ HwfJ) as [Hc|Hin]; [auto|].
      left. lia.
Qed.

Lemma own_calls_keep (cs : list call) :
  ∀ σ σ' : heap,
  Forall own_values cs →
  reachable growcap σ → separate σ → in_lockstep σ →
  run_calls growcap cs σ = Ok tt σ' →
  separate σ' ∧ in_lockstep σ'.
Proof using growcap_fits.
  induction cs as [|c cs IH]; intros σ σ' Hown Hreach Hsep Hlock.
  - intros [= <-]. now split.
  - apply Forall_cons in Hown as [Hc Hcs]. cbn [run_calls]. unfold bind.
    destruct (run_call growcap c σ) as [[] σ1|] eqn:Hrun; [|discriminate].
    destruct (own_call_keeps c σ σ1 Hc
                (reachable_wf growcap growcap_fits _ Hreach) Hsep Hlock Hrun)
      as [Hsep1 Hlock1].
    apply IH; [assumption| |assumption|assumption].
    eapply run_call_reachable; eassumption.
Qed.

(** X9. Stacks that are made by [New] from handlers written out and changed
    by [Use] only are never out of step: after any such history every
    stack's chain is [build] of its handler list, and no two stacks have
    room in the same backing array. *)
Theorem lockstep_without_sharing (cs : list call) (σ : heap) :
  Forall own_values cs →
  run_calls growcap cs empty_heap = Ok tt σ →
  in_lockstep σ ∧ separate σ.
Proof using growcap_fits.
  intros Hown Hrun.
  destruct (own_calls_keep cs empty_heap σ Hown) as [Hsep Hlock];
    [apply reach_empty| | |exact Hrun|now split].
  - intros j1 j2 K1 K2 _ H1. discriminate.
  - intros k K HK. discriminate.
Qed.

End StackMore.

(** ** Address detection *)

(** C8. [detectAddress] prefers an explicit argument to the environment and
    the environment to the default: with at least one argument it returns
    the first, whatever the environment; without arguments and with [PORT]
    set to a non-empty [p] it returns [":" ++ p]; without arguments and
    without [PORT] it returns [":8080"]. *)
Theorem detectAddress_precedence (env : gmap string string)
    (first : string) (rest : list string) (p : string) :
  p ≠ "" →
  detectAddress env (first :: rest) = first
  ∧ detectAddress (<["PORT" := p]> env) [] = ":" +:+ p
  ∧ detectAddress (delete "PORT" env) [] = ":8080".
Proof.
  intros Hp. split; [reflexivity|]. split.
  - unfold detectAddress, Getenv. rewrite lookup_insert_eq. simpl.
    now rewrite decide_True.
  - unfold detectAddress, Getenv. rewrite lookup_delete_eq. reflexivity.
Qed.

Lemma detectAddress_scenarios :
  detectAddress {["PORT" := "1234"]} [":7000"] = ":7000"
  ∧ detectAddress (<["PORT" := "9090"]> {["PORT" := "1234"]}) [] = ":9090"
  ∧ detectAddress (delete "PORT" {["PORT" := "1234"]}) [] = ":8080".
Proof.
  apply (detectAddress_precedence {["PORT" := "1234"]} ":7000" [] "9090").
  discriminate.
Defined.

(** X11. Without arguments the address is never [":"] alone: a [PORT] that
    is set but empty counts as not set and gives the default.  An explicit
    first argument is returned as it is, also when it is empty. *)
Theorem detectAddress_edges (env : gmap string string) (rest : list string) :
  detectAddress (<["PORT" := ""]> env) [] = ":8080"
  ∧ (∃ p, p ≠ "" ∧ detectAddress env [] = ":" +:+ p)
  ∧ detectAddress env ("" :: rest) = "".
Proof.
  split; [|split; [|reflexivity]].
  - unfold detectAddress, Getenv. rewrite lookup_insert_eq. reflexivity.
  - unfold detectAddress. cbn zeta.
    destruct (decide (Getenv env "PORT" ≠ "")) as [Hp|_].
    + exists (Getenv env "PORT"). now split.
    + exists "8080". now split.
Qed.

(** ** Scenarios *)

Lemma nextslicecap_fits oldCap newLen : newLen ≤ nextslicecap oldCap newLen.
Proof.
  unfold nextslicecap. repeat case_decide; [lia|lia|].
  assert (Hloop : ∀ fuel newcap,
            newLen ≤ nextslicecap_loop fuel newcap newLen).
  { induction fuel as [|fuel IH]; intros newcap; simpl; [lia|].
    case_decide; [lia|apply IH]. }
  apply Hloop.
Qed.

Lemma roundupsize_fits (size : N) : (size ≤ roundupsize size)%N.
Proof.
  unfold roundupsize. case_decide as Hsmall.
  - cbn zeta. destruct (decide (512 < size)%N) as [Hbig|Hle];
      (destruct (list_find _ class_to_size) as [[j c]|] eqn:Hfind; [|lia]);
      apply list_find_Some in Hfind as (_ & Hc & _); lia.
  - pose proof (N.Div0.mod_le (size + 8191) 8192).
    pose proof (N.div_mod (size + 8191) 8192 ltac:(lia)).
    pose proof (N.mod_lt (size + 8191) 8192 ltac:(lia)). lia.
Qed.

Lemma growslice_cap_fits oldCap newLen : newLen ≤ growslice_cap oldCap newLen.
Proof.
  unfold growslice_cap.
  pose proof (nextslicecap_fits oldCap newLen) as Hn.
  pose proof (roundupsize_fits (16 * N.of_nat (nextslicecap oldCap newLen)))
    as Hr.
  assert (N.of_nat (nextslicecap oldCap newLen)
          ≤ roundupsize (16 * N.of_nat (nextslicecap oldCap newLen)) / 16)%N.
  { apply N.div_le_lower_bound; lia. }
  lia.
Qed.

(** The rounding shows from 17 handlers on; the capacities 1, 2, 4, ..., 32
    that [Use] after [Use] goes through are size classes themselves. *)
Example growslice_cap_values :
  growslice_cap 0 1 = 1 ∧ growslice_cap 1 2 = 2 ∧ growslice_cap 2 3 = 4
  ∧ growslice_cap 4 5 = 8 ∧ growslice_cap 16 17 = 32
  ∧ growslice_cap 0 17 = 18 ∧ growslice_cap 32 33 = 71.
Proof. vm_compute. repeat split. Qed.

Lemma dispatch_registration_order_witness :
  dispatch [continuing "X" "1"; continuing "Z" "3"; stopping "Y" "2"] tt tt []
  = run_in_order 0 [continuing "X" "1"; continuing "Z" "3"; stopping "Y" "2"]
      tt tt []
  ∧ res_world
      (dispatch (map (λ p, around p.1 p.2)
                   [(setHeader "A" "in", setHeader "A" "out");
                    (setHeader "B" "in", setHeader "B" "out");
                    (setHeader "C" "in", setHeader "C" "out")]) tt tt [])
    = [("A", "out"); ("B", "out"); ("C", "out");
       ("C", "in"); ("B", "in"); ("A", "in")]
  ∧ firsts (registered 3 (res_events
      (dispatch [continuing "X" "1"; continuing "Z" "3"; stopping "Y" "2"]
                tt tt [])))
    = [0; 1; 2]
  ∧ registered 3 (res_events
      (dispatch [continuing "X" "1"; continuing "Z" "3"; stopping "Y" "2"]
                tt tt []))
    = [0; 1; 2].
Proof.
  destruct (dispatch_registration_order
              [continuing "X" "1"; continuing "Z" "3"; stopping "Y" "2"]
              tt tt []) as (Hrun & Haround & Horder).
  split; [exact Hrun|]. split.
  - apply (Haround [(setHeader "A" "in", setHeader "A" "out");
                    (setHeader "B" "in", setHeader "B" "out");
                    (setHeader "C" "in", setHeader "C" "out")]).
  - destruct Horder as [Hfirst Hexact].
    + intros [|[|i]] Hi; [vm_compute; lia|vm_compute; lia|simpl in Hi; lia].
    + split; [exact Hfirst|apply Hexact].
      intros [|[|i]] Hi; [reflexivity|reflexivity|simpl in Hi; lia].
Defined.

(** The handlers of the witness leave their marks in the order of
    registration. *)
Example dispatch_registration_order_world :
  res_world (dispatch [continuing "X" "1"; continuing "Z" "3"; stopping "Y" "2"]
                      tt tt [])
  = [("Y", "2"); ("Z", "3"); ("X", "1")].
Proof. reflexivity. Qed.

(** The spec's scenario: [A] continues, [B] does not, [C] is never run. *)
Lemma dispatch_short_circuit_witness :
  invocations (res_events
     (dispatch [continuing "X" "1"; stopping "Y" "2"; continuing "Z" "3"]
               tt tt [])) 2 = 0.
Proof.
  apply (dispatch_short_circuit
           [continuing "X" "1"; stopping "Y" "2"; continuing "Z" "3"]
           1 tt tt []); [reflexivity|lia].
Defined.

Example dispatch_short_circuit_headers :
  res_world (dispatch [continuing "X" "1"; stopping "Y" "2"; continuing "Z" "3"]
                      tt tt [])
  = [("Y", "2"); ("X", "1")].
Proof. reflexivity. Qed.

(** C7, the claim as stated fails: an adapted handler whose plain handler
    panics does not call its continuation, and the handler after it is not
    reached. *)
Lemma adapter_of_panicking_handler_stops :
  yields (res_events
     (dispatch [Wrap aborting; stopping "Y" "2"] tt tt [])) 0 = 0
  ∧ invocations (res_events
     (dispatch [Wrap aborting; stopping "Y" "2"] tt tt [])) 1 = 0
  ∧ invocations (res_events
     (dispatch [WrapFunc aborting; stopping "Y" "2"] tt tt [])) 1 = 0
  ∧ res_status (dispatch [Wrap aborting; stopping "Y" "2"] tt tt [])
    = Panicked.
Proof. repeat split. Qed.

Lemma adapters_call_next_witness :
  yields (res_events
     (dispatch [Wrap (plainHeader "X" "1"); stopping "Y" "2"] tt tt [])) 0 = 1
  ∧ invocations (res_events
     (dispatch [Wrap (plainHeader "X" "1"); stopping "Y" "2"] tt tt [])) 1 = 1
  ∧ yields (res_events
     (dispatch [WrapFunc (plainHeader "X" "1"); stopping "Y" "2"] tt tt []))
     0 = 1
  ∧ invocations (res_events
     (dispatch [WrapFunc (plainHeader "X" "1"); stopping "Y" "2"] tt tt []))
     1 = 1.
Proof.
  apply (adapters_call_next (plainHeader "X" "1") [stopping "Y" "2"] tt tt []).
  reflexivity.
Defined.

(** C9, the claim as stated fails: neither handler loops or blocks, and the
    dispatch through the two of them makes seven invocations, four of them
    of registered handlers. *)
Lemma repeated_next_exceeds_bound :
  ¬ (length (invoked (res_events
        (dispatch [thrice; continuing "X" "1"] tt tt [])))
     ≤ length [thrice; continuing "X" "1"] + 1)
  ∧ ¬ (length (registered 2 (res_events
        (dispatch [thrice; continuing "X" "1"] tt tt [])))
     ≤ length [thrice; continuing "X" "1"] + 1).
Proof. split; vm_compute; lia. Qed.

Lemma dispatch_invocations_bound_witness :
  nodes (build [continuing "X" "1"; stopping "Y" "2"; continuing "Z" "3"]) = 5
  ∧ (∃ st w' t,
       dispatch [continuing "X" "1"; stopping "Y" "2"; continuing "Z" "3"]
                tt tt [] = Result st w' t)
  ∧ length (invoked (res_events
      (dispatch [continuing "X" "1"; stopping "Y" "2"; continuing "Z" "3"]
                tt tt []))) ≤ 4.
Proof.
  destruct (dispatch_invocations_bound
              [continuing "X" "1"; stopping "Y" "2"; continuing "Z" "3"]
              tt tt []) as (Hnodes & Hends & Hbound).
  split; [exact Hnodes|]. split; [exact Hends|]. apply Hbound.
  intros [|[|i]]; vm_compute; lia.
Defined.

Lemma heap_after_wf (cs : list call) :
  panicked (run_calls growslice_cap cs empty_heap) ∨ wf (heap_after cs).
Proof.
  unfold heap_after.
  destruct (run_calls growslice_cap cs empty_heap) as [[] σ|msg σ] eqn:Hrun;
    [right|left; exact I].
  apply (reachable_wf growslice_cap growslice_cap_fits).
  eapply run_calls_reachable; [apply reach_empty|exact Hrun].
Qed.

Lemma Use_appends_and_rebuilds_witness :
  (panicked (Use growslice_cap 0 (continuing "B" "1")
               (heap_after [CallNew (Values [continuing "A" "1"])]))
   ↔ continuing "B" "1" = nilHandler)
  ∧ ∃ σ', Use growslice_cap 0 (continuing "B" "1")
            (heap_after [CallNew (Values [continuing "A" "1"])]) = Ok tt σ'
      ∧ handlers_of σ' 0 = Some [continuing "A" "1"; continuing "B" "1"]
      ∧ middleware_of σ' 0
          = Some (build [continuing "A" "1"; continuing "B" "1"]).
Proof.
  destruct (Use_appends_and_rebuilds growslice_cap 0
              {| Kudret_middleware := build [continuing "A" "1"];
                 Kudret_handlers := Slice 0 1 1 |}
              (continuing "B" "1")
              (heap_after [CallNew (Values [continuing "A" "1"])]))
    as [Hiff Hok].
  - destruct (heap_after_wf [CallNew (Values [continuing "A" "1"])])
      as [[]|Hwf]. exact Hwf.
  - reflexivity.
  - split; [exact Hiff|]. apply Hok. discriminate.
Defined.

Lemma With_leaves_receiver_witness :
  ∃ k' σ',
    With growslice_cap 0 (Slice 0 2 2)
      (heap_after [CallNew (Values [continuing "A" "1"; stopping "B" "1"])])
      = Ok k' σ'
    ∧ stacks (heap_after
               [CallNew (Values [continuing "A" "1"; stopping "B" "1"])]) !! k'
      = None
    ∧ handlers_of σ' k'
      = Some [continuing "A" "1"; stopping "B" "1";
              continuing "A" "1"; stopping "B" "1"]
    ∧ middleware_of σ' k'
      = Some (build [continuing "A" "1"; stopping "B" "1";
                     continuing "A" "1"; stopping "B" "1"])
    ∧ stacks σ' !! 0
      = Some {| Kudret_middleware :=
                  build [continuing "A" "1"; stopping "B" "1"];
                Kudret_handlers := Slice 0 2 2 |}
    ∧ handlers_of σ' 0
      = handlers_of (heap_after
          [CallNew (Values [continuing "A" "1"; stopping "B" "1"])]) 0
    ∧ (∀ rw r w,
         Kudret_ServeHTTP σ' 0 rw r w
         = Kudret_ServeHTTP (heap_after
             [CallNew (Values [continuing "A" "1"; stopping "B" "1"])])
             0 rw r w).
Proof.
  apply (With_leaves_receiver growslice_cap 0
           {| Kudret_middleware := build [continuing "A" "1"; stopping "B" "1"];
              Kudret_handlers := Slice 0 2 2 |}
           (Slice 0 2 2)
           (heap_after [CallNew (Values [continuing "A" "1"; stopping "B" "1"])])).
  - destruct (heap_after_wf
                [CallNew (Values [continuing "A" "1"; stopping "B" "1"])])
      as [[]|Hwf]. exact Hwf.
  - reflexivity.
Defined.

(** C5, at the failing input.  After [k := New()], three [Use] on [k],
    [k1 := k.With(D)] and [k.With(E)], each call returning normally, [k1]
    lists the handlers [A, B, C, E] but its chain is [build] of
    [A, B, C, D]: the second [With] has written [E] into the backing array
    that [k1] shares with [k].  The heap is reachable and not in lockstep. *)
Theorem With_overwrites_derived_stack :
  run_calls growslice_cap two_derivations empty_heap
    = Ok tt (heap_after two_derivations)
  ∧ reachable growslice_cap (heap_after two_derivations)
  ∧ handlers_of (heap_after two_derivations) 1
    = Some [continuing "A" "1"; continuing "B" "1"; continuing "C" "1";
            continuing "E" "1"]
  ∧ middleware_of (heap_after two_derivations) 1
    = Some (build [continuing "A" "1"; continuing "B" "1"; continuing "C" "1";
                   continuing "D" "1"])
  ∧ res_world (Kudret_ServeHTTP (heap_after two_derivations) 1 tt tt [])
    = [("D", "1"); ("C", "1"); ("B", "1"); ("A", "1")]
  ∧ ¬ in_lockstep (heap_after two_derivations).
Proof.
  assert (Hrun : run_calls growslice_cap two_derivations empty_heap
                 = Ok tt (heap_after two_derivations)) by reflexivity.
  split; [exact Hrun|]. split.
  { eapply run_calls_reachable; [apply reach_empty|exact Hrun]. }
  split; [reflexivity|]. split; [reflexivity|]. split; [reflexivity|].
  intros Hinv. pose proof (in_lockstep_of _ Hinv 1) as Heq.
  apply (f_equal (fmap (λ m, res_world (middleware_ServeHTTP 0 m tt tt []))))
    in Heq.
  vm_compute in Heq. discriminate.
Qed.

(** The same through [Use]: appending to [k] after [k1 := k.With(D)] puts the
    new handler into the array [k1] reads its handlers from. *)
Example Use_overwrites_derived_stack :
  handlers_of (heap_after derivation_then_Use) 1
    = Some [continuing "A" "1"; continuing "B" "1"; continuing "C" "1";
            continuing "E" "1"]
  ∧ middleware_of (heap_after derivation_then_Use) 1
    = Some (build [continuing "A" "1"; continuing "B" "1"; continuing "C" "1";
                   continuing "D" "1"])
  ∧ handlers_of (heap_after derivation_then_Use) 0
    = Some [continuing "A" "1"; continuing "B" "1"; continuing "C" "1";
            continuing "E" "1"].
Proof. repeat split. Qed.

(** *** Scenarios of the further properties *)

Lemma dispatch_truncated_witness :
  dispatch [continuing "X" "1"; stopping "Y" "2"; continuing "Z" "3"] tt tt []
  = dispatch [continuing "X" "1"; stopping "Y" "2"] tt tt [].
Proof.
  apply (dispatch_truncated
           [continuing "X" "1"; stopping "Y" "2"; continuing "Z" "3"]
           1 tt tt []).
  reflexivity.
Defined.

Lemma build_injective_witness :
  [continuing "X" "1"; stopping "Y" "2"]
  = [continuing "X" "1"; stopping "Y" "2"].
Proof.
  apply (build_injective [continuing "X" "1"; stopping "Y" "2"]
                         [continuing "X" "1"; stopping "Y" "2"]).
  reflexivity.
Defined.

Lemma Use_adapters_return_witness :
  (∃ σ', UseFunc growslice_cap 0 (λ rw r, callNext rw r Return)
           (heap_after [CallNew (Values [continuing "A" "1"])]) = Ok tt σ'
     ∧ handlers_of σ' 0
       = Some [continuing "A" "1"; HandlerFunc (λ rw r, callNext rw r Return)]
     ∧ middleware_of σ' 0
       = Some (build [continuing "A" "1";
                      HandlerFunc (λ rw r, callNext rw r Return)]))
  ∧ (∃ σ', UseHandler growslice_cap 0 (plainHeader "X" "1")
             (heap_after [CallNew (Values [continuing "A" "1"])]) = Ok tt σ'
     ∧ handlers_of σ' 0 = Some [continuing "A" "1"; Wrap (plainHeader "X" "1")]
     ∧ middleware_of σ' 0 = Some (build [continuing "A" "1"; Wrap (plainHeader "X" "1")]))
  ∧ (∃ σ', UseHandlerFunc growslice_cap 0 (plainHeader "X" "1")
             (heap_after [CallNew (Values [continuing "A" "1"])]) = Ok tt σ'
     ∧ handlers_of σ' 0
       = Some [continuing "A" "1"; WrapFunc (plainHeader "X" "1")]
     ∧ middleware_of σ' 0
       = Some (build [continuing "A" "1"; WrapFunc (plainHeader "X" "1")])).
Proof.
  apply (Use_adapters_return growslice_cap 0
           {| Kudret_middleware := build [continuing "A" "1"];
              Kudret_handlers := Slice 0 1 1 |}
           (λ rw r, callNext rw r Return) (plainHeader "X" "1")
           (heap_after [CallNew (Values [continuing "A" "1"])])).
  - destruct (heap_after_wf [CallNew (Values [continuing "A" "1"])])
      as [[]|Hwf]. exact Hwf.
  - reflexivity.
Defined.

Lemma Use_in_order_witness :
  ∃ σ', run_calls growslice_cap
          (map (CallUse 0) [continuing "B" "1"; stopping "C" "1"])
          (heap_after [CallNew (Values [continuing "A" "1"])]) = Ok tt σ'
    ∧ wf σ'
    ∧ handlers_of σ' 0
      = Some [continuing "A" "1"; continuing "B" "1"; stopping "C" "1"]
    ∧ middleware_of σ' 0
      = Some (build [continuing "A" "1"; continuing "B" "1"; stopping "C" "1"])
    ∧ ∀ rw r w,
        Kudret_ServeHTTP σ' 0 rw r w
        = dispatch [continuing "A" "1"; continuing "B" "1"; stopping "C" "1"]
                   rw r w.
Proof.
  destruct (Use_in_order growslice_cap growslice_cap_fits 0
              [continuing "B" "1"; stopping "C" "1"]
              {| Kudret_middleware := build [continuing "A" "1"];
                 Kudret_handlers := Slice 0 1 1 |}
              (heap_after [CallNew (Values [continuing "A" "1"])]))
    as (σ' & Hrun & Hwf' & Hhs & Hchain).
  - destruct (heap_after_wf [CallNew (Values [continuing "A" "1"])])
      as [[]|Hwf]. exact Hwf.
  - reflexivity.
  - repeat constructor; discriminate.
  - exists σ'. split; [exact Hrun|]. split; [exact Hwf'|].
    split; [exact Hhs|]. apply Hchain. discriminate.
Defined.

Lemma reachable_chains_fit_witness :
  wf (heap_after two_derivations)
  ∧ chains_fit (heap_after two_derivations)
  ∧ ∀ k K, stacks (heap_after two_derivations) !! k = Some K →
      nodes (Kudret_middleware K) = slice_len (Kudret_handlers K) + 2.
Proof.
  apply (reachable_chains_fit growslice_cap growslice_cap_fits
           (heap_after two_derivations)).
  apply (run_calls_reachable growslice_cap two_derivations empty_heap);
    [apply reach_empty|reflexivity].
Defined.

Lemma calls_keep_other_stacks_witness :
  stacks (heap_after derivation_then_Use) !! 1
  = Some {| Kudret_middleware :=
              build [continuing "A" "1"; continuing "B" "1";
                     continuing "C" "1"; continuing "D" "1"];
            Kudret_handlers := Slice 2 4 4 |}
  ∧ ∀ rw r w,
      Kudret_ServeHTTP (heap_after derivation_then_Use) 1 rw r w
      = Kudret_ServeHTTP (heap_after one_derivation) 1 rw r w.
Proof.
  apply (calls_keep_other_stacks growslice_cap
           (CallUse 0 (continuing "E" "1"))
           (heap_after one_derivation) (heap_after derivation_then_Use) 1).
  - reflexivity.
  - reflexivity.
  - intros h Heq. congruence.
Defined.

Lemma lockstep_without_sharing_witness :
  in_lockstep (heap_after two_own_stacks)
  ∧ separate (heap_after two_own_stacks).
Proof.
  apply (lockstep_without_sharing growslice_cap growslice_cap_fits
           two_own_stacks (heap_after two_own_stacks)).
  - repeat constructor.
  - reflexivity.
Defined.

Lemma New_of_Handlers_shares_witness :
  ∃ σ', bind (Handlers 0) New
          (heap_after [CallNew (Values [continuing "A" "1"; stopping "B" "1"])])
        = Ok 1 σ'
    ∧ arrays σ'
      = arrays (heap_after
                  [CallNew (Values [continuing "A" "1"; stopping "B" "1"])])
    ∧ Handlers 1 σ' = Ok (Slice 0 2 2) σ'
    ∧ Handlers 0 σ' = Ok (Slice 0 2 2) σ'
    ∧ middleware_of σ' 1
      = Some (build [continuing "A" "1"; stopping "B" "1"]).
Proof.
  apply (New_of_Handlers_shares 0
           {| Kudret_middleware := build [continuing "A" "1"; stopping "B" "1"];
              Kudret_handlers := Slice 0 2 2 |}
           (heap_after
              [CallNew (Values [continuing "A" "1"; stopping "B" "1"])])).
  reflexivity.
Defined.

Lemma With_twice_witness :
  ∃ σ1 σ2,
    With growslice_cap 0 (Slice 1 1 1)
      (heap_after [CallNew (Values [continuing "A" "1"]);
                   CallNew (Values [stopping "B" "1"])])
    = Ok 2 σ1
    ∧ With growslice_cap 2 (Slice 1 1 1) σ1 = Ok 3 σ2
    ∧ handlers_of σ2 3
      = Some ([continuing "A" "1"] ++ [stopping "B" "1"]
              ++ elems σ1 (Slice 1 1 1))
    ∧ middleware_of σ2 3
      = Some (build ([continuing "A" "1"] ++ [stopping "B" "1"]
                     ++ elems σ1 (Slice 1 1 1))).
Proof.
  apply (With_twice growslice_cap growslice_cap_fits 0
           {| Kudret_middleware := build [continuing "A" "1"];
              Kudret_handlers := Slice 0 1 1 |}
           (Slice 1 1 1) (Slice 1 1 1)
           (heap_after [CallNew (Values [continuing "A" "1"]);
                        CallNew (Values [stopping "B" "1"])])).
  - destruct (heap_after_wf [CallNew (Values [continuing "A" "1"]);
                             CallNew (Values [stopping "B" "1"])])
      as [[]|Hwf]. exact Hwf.
  - reflexivity.
Defined.

Lemma dispatch_propagates_panic_witness :
  res_status (dispatch [Wrap (plainHeader "X" "1"); continuing "Y" "2";
                        nilHandler; stopping "Z" "3"] tt tt [])
  = Panicked.
Proof.
  apply (dispatch_propagates_panic
           [Wrap (plainHeader "X" "1"); continuing "Y" "2"; nilHandler;
            stopping "Z" "3"] nilHandler 2 tt tt []).
  - repeat constructor.
  - reflexivity.
  - intros pos rw r next w. reflexivity.
  - vm_compute. lia.
Defined.
